(** * GTSDB region proposal network: anchor geometry, target assignment, losses

  A shallow embedding of the numeric code of [GTSDB/GTSDB_RPN_Train.ipynb].

  Numbers.  numpy's float64 values are idealised as real numbers: every
  arithmetic operation of the notebook is the exact operation on [R]
  (rounding, overflow and the special values inf and nan are outside the
  model).  A division is [Rdiv] and [np.log] is [ln], both total on [R];
  numpy yields inf or nan for a zero divisor and for the logarithm of a
  number that is not positive, so the model is exact only away from these;
  the facts below say when the divisor of [iou] is positive and when the
  arguments of the logarithms are.

  Arrays.  An ndarray is a nested list in row-major order: the anchors
  of shape (rows, cols, anc_num, 4) are a three-level list of boxes, a
  box being the four-element list [y1; x1; y2; x2] of the last axis. *)

From Stdlib Require Import Reals Lra Lia ZArith.
From Stdlib Require String Ascii DecimalString DecimalNat.
From stdpp Require Import base list.

#[global] Instance R_inhabited : Inhabited R := populate 0%R.
#[global] Instance R_eq_dec : EqDecision R := Req_dec_T.
#[global] Instance R_le_dec : RelDecision Rle := Rle_dec.
#[global] Instance R_lt_dec : RelDecision Rlt := Rlt_dec.

(** ** Arrays of rank three *)

Module Arr.

(** Written as a notation so that the list lemmas apply to it directly. *)
Abbreviation arr3 A := (list (list (list A))).

(** [m[i, j, a]], [None] when an index is out of range. *)
Definition get3 {A} (m : arr3 A) (i j a : nat) : option A :=
  row ← m !! i; cell ← row !! j; cell !! a.

(** A unary elementwise operation. *)
Definition map3 {A B} (f : A → B) (m : arr3 A) : arr3 B :=
  fmap (M := list) (fmap (M := list) (fmap (M := list) f)) m.

(** A binary elementwise operation on arrays of one shape. *)
Definition zip3 {A B C} (f : A → B → C) (m : arr3 A) (n : arr3 B) : arr3 C :=
  zip_with (zip_with (zip_with f)) m n.

(** [m.reshape(-1)] / the row-major enumeration of the entries. *)
Definition flat3 {A} (m : arr3 A) : list A := concat (concat m).

(** [m.shape == (r, c, k)]. *)
Definition shape3 {A} (m : arr3 A) (r c k : nat) : Prop :=
  length m = r ∧
  Forall (λ row, length row = c ∧ Forall (λ cell : list A, length cell = k) row) m.

End Arr.
Export Arr.

(** ** Boxes: [intersect], [union], [iou] *)

Module Boxes.
Local Open Scope R_scope.

(** A box is the last axis of a box array: [[y1; x1; y2; x2]]. *)
Abbreviation box := (list R).

(** [b[..., k]] on one box. *)
Definition ix (k : nat) (b : box) : R := b !!! k.

(** [np.minimum(b1, b2)] and [np.maximum(b1, b2)] on the last axis. *)
Definition minimum (b1 b2 : box) : box := zip_with Rmin b1 b2.
Definition maximum (b1 b2 : box) : box := zip_with Rmax b1 b2.

Definition intersect (b1 b2 : box) : R :=
  let m := minimum b1 b2 in
  let M := maximum b1 b2 in
  let h := Rmax (ix 2 m - ix 0 M) 0 in
  let w := Rmax (ix 3 m - ix 1 M) 0 in
  w * h.

Definition union (b1 b2 : box) (iarea : R) : R :=
  let a1 := (ix 2 b1 - ix 0 b1) * (ix 3 b1 - ix 1 b1) in
  let a2 := (ix 2 b2 - ix 0 b2) * (ix 3 b2 - ix 1 b2) in
  a1 + a2 - iarea.

Definition iou (b1 b2 : box) : R :=
  let iarea := intersect b1 b2 in
  let uarea := union b1 b2 iarea in
  iarea / uarea.

(** [coords2param] on one anchor and the ground-truth box paired with
    it; the notebook applies it to whole arrays, entry by entry. *)
Definition coords2param (anc gtb : box) : list R :=
  let wa := ix 3 anc - ix 1 anc in
  let ha := ix 2 anc - ix 0 anc in
  let tx := (ix 1 gtb - ix 1 anc) / wa in
  let ty := (ix 1 gtb - ix 1 anc) / ha in
  let tw := ln ((ix 3 gtb - ix 1 gtb) / wa) in
  let th := ln ((ix 2 gtb - ix 0 gtb) / ha) in
  [tx; ty; tw; th].

(** *** The geometry the formulas are meant to compute *)

(** Length of the overlap of the intervals [lo1, hi1] and [lo2, hi2],
    clamped at 0. *)
Definition overlap (lo1 hi1 lo2 hi2 : R) : R :=
  Rmax 0 (Rmin hi1 hi2 - Rmax lo1 lo2).

Definition area (b : box) : R := (ix 2 b - ix 0 b) * (ix 3 b - ix 1 b).

(** Area of the geometric intersection: the product of the overlaps on
    the two axes. *)
Definition inter_area (b1 b2 : box) : R :=
  overlap (ix 0 b1) (ix 2 b1) (ix 0 b2) (ix 2 b2)
  * overlap (ix 1 b1) (ix 3 b1) (ix 1 b2) (ix 3 b2).

(** The point (y, x) lies in the closed box. *)
Definition in_box (b : box) (y x : R) : Prop :=
  ix 0 b <= y <= ix 2 b ∧ ix 1 b <= x <= ix 3 b.

(** The paper-style parametrization with corner offsets. *)
Definition param_spec (anc gtb : box) : list R :=
  let wa := ix 3 anc - ix 1 anc in
  let ha := ix 2 anc - ix 0 anc in
  [ (ix 1 gtb - ix 1 anc) / wa;
    (ix 0 gtb - ix 0 anc) / ha;
    ln ((ix 3 gtb - ix 1 gtb) / wa);
    ln ((ix 2 gtb - ix 0 gtb) / ha) ].

End Boxes.
Export Boxes.

(** ** Anchor generation: [get_anchors] *)

Module Anchors.
Local Open Scope R_scope.

(** [np.indices((rows, cols))], of shape (2, rows, cols). *)
Definition indices (rows cols : nat) : arr3 R :=
  [ ((λ i : nat, (λ _ : nat, INR i) <$> seq 0 cols) <$> seq 0 rows);
    ((λ _ : nat, (λ j : nat, INR j) <$> seq 0 cols) <$> seq 0 rows) ].

(** [t.transpose((1, 2, 0))]: the first axis becomes the last.  The shape
    of the result is read off the first plane of [t]. *)
Definition transpose_120 (t : arr3 R) : arr3 R :=
  match t with
  | [] => []
  | p :: _ =>
      imap (λ (i : nat) (row : list R),
              imap (λ (j : nat) (_ : R),
                      (λ q : list (list R), (q !!! i) !!! j) <$> t) row) p
  end.

(** [np.tile(t, 2)]: the last axis twice. *)
Definition tile2 (t : arr3 R) : arr3 R :=
  fmap (M := list) (fmap (M := list) (λ v : list R, v ++ v)) t.

(** [np.expand_dims(t, axis=2)] on a rank-three array. *)
Definition expand_dims2 (t : arr3 R) : arr3 (list R) :=
  fmap (M := list) (fmap (M := list) (λ v : list R, [v])) t.

(** [t.repeat(k, axis=2)]: every entry of axis 2 is repeated [k] times. *)
Definition repeat2 (k : nat) (t : arr3 (list R)) : arr3 (list R) :=
  fmap (M := list) (fmap (M := list) (λ l : list (list R), l ≫= replicate k)) t.

(** [np.repeat(np.expand_dims(np.array(sizes), axis=1), 4, axis=1)
      * [-.5, -.5, .5, .5]], of shape (anc_num, 4). *)
Definition half_extents (sizes : list R) : list (list R) :=
  (λ s : R, zip_with Rmult ([s] ≫= replicate 4) [-0.5; -0.5; 0.5; 0.5]) <$> sizes.

(** [t + e] for [t] of shape (rows, cols, anc_num, 4) and [e] of shape
    (anc_num, 4), broadcast over the two leading axes. *)
Definition add_bcast (t : arr3 (list R)) (e : list (list R)) : arr3 (list R) :=
  fmap (M := list) (fmap (M := list)
    (λ l : list (list R), zip_with (zip_with Rplus) l e)) t.

Definition get_anchors (rows cols : nat) (sizes : list R) (stride : R) : arr3 box :=
  add_bcast
    (repeat2 (length sizes)
       (expand_dims2
          (tile2 (map3 (λ v : R, v * stride + 0.5)
                       (transpose_120 (indices rows cols))))))
    (half_extents sizes).

(** The anchors of one grid cell, as a function of the pair [i; j]. *)
Definition cell_anchors (sizes : list R) (stride : R) (v : list R) : list box :=
  zip_with (zip_with Rplus)
    ([((λ x : R, x * stride + 0.5) <$> v) ++ ((λ x : R, x * stride + 0.5) <$> v)]
       ≫= replicate (length sizes))
    (half_extents sizes).

End Anchors.
Export Anchors.

(** ** Assignment of anchors to ground-truth boxes: [anchors_vs_gt] *)

Module Assign.
Local Open Scope R_scope.

(** [iou(ancs, gtb)] for the whole anchor array and one ground-truth box. *)
Definition iou_arr (ancs : arr3 box) (gtb : box) : arr3 R :=
  map3 (λ b : box, iou b gtb) ancs.

(** [np.stack(xs, axis=-1)] of rank-three arrays of one shape; numpy
    raises ValueError on an empty list. *)
Definition stack_last {A} (xs : list (arr3 A)) : option (arr3 (list A)) :=
  match xs with
  | [] => None
  | x :: _ => Some (foldr (zip3 cons) (map3 (λ _ : A, []) x) xs)
  end.

(** [t.max(axis=0)] for [t] of rank two; numpy raises ValueError when
    [t] has no row. *)
Definition max_axis0 (t : list (list R)) : option (list R) :=
  match t with
  | [] => None
  | r :: rs => Some (foldl (zip_with Rmax) r rs)
  end.

(** [v.max()] along a last axis; that axis is never empty where this is
    used (the stack above has succeeded). *)
Definition vmax (v : list R) : R :=
  match v with
  | [] => 0
  | x :: xs => foldl Rmax x xs
  end.

(** [v.argmax()]: the first index at which the maximum is attained. *)
Fixpoint argmax_from (v : list R) (i besti : nat) (best : R) : nat :=
  match v with
  | [] => besti
  | x :: xs =>
      if bool_decide (best < x) then argmax_from xs (S i) i x
      else argmax_from xs (S i) besti best
  end.

Definition argmax (v : list R) : nat :=
  match v with
  | [] => 0%nat
  | x :: xs => argmax_from xs 1 0 x
  end.

(** [np.logical_and(ious == best, best > 0).any(axis=-1)] on one anchor:
    [v] is the anchor's row of IoUs, [best] the per-box maxima. *)
Definition soft_pos (v best : list R) : bool :=
  existsb (λ b : bool, b)
    (zip_with andb
       (zip_with (λ x b : R, bool_decide (x = b)) v best)
       ((λ b : R, bool_decide (0 < b)) <$> best)).

Definition anchors_vs_gt (ancs : arr3 box) (gtbs : list box) (lo hi : R)
  : option (arr3 bool * arr3 bool * arr3 (list R)) :=
  ious ← stack_last ((λ gtb : box, iou_arr ancs gtb) <$> gtbs);
  best ← max_axis0 (flat3 ious);
  let box_pos :=
    zip3 orb
      (map3 (λ m : R, bool_decide (hi <= m)) (map3 vmax ious))
      (map3 (λ v : list R, soft_pos v best) ious) in
  let box_neg := map3 (λ m : R, bool_decide (m <= lo)) (map3 vmax ious) in
  let best_gt := map3 (λ v : list R, gtbs !!! argmax v) ious in
  Some (box_pos, box_neg, zip3 coords2param ancs best_gt).

(** The value of [best] in [anchors_vs_gt]: the per-box maxima over all
    anchors. *)
Definition best_of (ancs : arr3 box) (gtbs : list box) : list R :=
  (λ g : box, vmax ((λ b : box, iou b g) <$> flat3 ancs)) <$> gtbs.

(** *** What the assignment is meant to compute *)

(** [m] is the greatest value of the family [f] over the members of [l]. *)
Definition is_max_over {A} (l : list A) (f : A → R) (m : R) : Prop :=
  (∃ x, x ∈ l ∧ f x = m) ∧ ∀ x, x ∈ l → f x <= m.

(** The positive rule: the anchor's greatest IoU reaches [hi], or it
    attains, for some ground-truth box, the greatest IoU any anchor has
    with that box, and that IoU is positive. *)
Definition positive_rule (ancs : arr3 box) (gtbs : list box) (hi : R) (anc : box) : Prop :=
  (∃ m, is_max_over gtbs (iou anc) m ∧ hi <= m)
  ∨ (∃ g m, g ∈ gtbs ∧ is_max_over (flat3 ancs) (λ b, iou b g) m
            ∧ iou anc g = m ∧ 0 < m).

(** The negative rule: the anchor's greatest IoU is at most [lo]. *)
Definition negative_rule (gtbs : list box) (lo : R) (anc : box) : Prop :=
  ∃ m, is_max_over gtbs (iou anc) m ∧ m <= lo.

(** [k] is the first position at which the vector [v] takes its greatest
    value [m]. *)
Definition first_max (v : list R) (k : nat) (m : R) : Prop :=
  v !! k = Some m
  ∧ (∀ x, x ∈ v → x <= m)
  ∧ ∀ k' x, (k' < k)%nat → v !! k' = Some x → x < m.

(** [k] is the first position of a ground-truth box of greatest IoU with
    [anc]. *)
Definition first_best (gtbs : list box) (anc : box) (k : nat) (g : box) : Prop :=
  gtbs !! k = Some g
  ∧ is_max_over gtbs (iou anc) (iou anc g)
  ∧ ∀ k' g', (k' < k)%nat → gtbs !! k' = Some g' → iou anc g' < iou anc g.

End Assign.
Export Assign.

(** ** Sub-sampling of the masks: [filter_boxes] *)

Module Filter.

(** An index triple (i, j, a) into a mask of shape (rows, cols, anc_num). *)
Abbreviation pos3 := (nat * nat * nat)%type.

(** The number of true entries of a vector. *)
Definition cnt (v : list bool) : nat :=
  length (filter (λ b : bool, b = true) v).

(** [m[m].shape[0]]: the number of true entries. *)
Definition count_true (m : arr3 bool) : nat := cnt (flat3 m).

(** [m[p]] for an index triple [p]. *)
Definition getp (m : arr3 bool) (p : nat * nat * nat) : option bool :=
  get3 m p.1.1 p.1.2 p.2.

(** [np.where(m)]: the indices of the true entries in row-major order.
    numpy returns one index array per axis; [np.vstack] makes them the
    rows of a matrix whose columns are the triples listed here. *)
Fixpoint where1 (a : nat) (cell : list bool) : list nat :=
  match cell with
  | [] => []
  | b :: bs => (if b then [a] else []) ++ where1 (S a) bs
  end.

Fixpoint where2 (j : nat) (row : list (list bool)) : list (nat * nat) :=
  match row with
  | [] => []
  | c :: cs => ((λ a : nat, (j, a)) <$> where1 0 c) ++ where2 (S j) cs
  end.

Fixpoint where3_from (i : nat) (m : arr3 bool) : list pos3 :=
  match m with
  | [] => []
  | r :: rs => ((λ ja : nat * nat, (i, ja.1, ja.2)) <$> where2 0 r) ++ where3_from (S i) rs
  end.

Definition where3 (m : arr3 bool) : list pos3 := where3_from 0 m.

(** [m[i, j, a] = v]; the mask is updated in place and handed back, the
    model returns the updated mask.  numpy raises IndexError for an index
    out of range, where this update does nothing; the indices written by
    [filter_boxes] come from [np.where] and are in range. *)
Definition set3 (m : arr3 bool) (p : pos3) (v : bool) : arr3 bool :=
  alter (alter (λ cell : list bool, <[p.2 := v]> cell) p.1.2) p.1.1 m.

(** [m[np.vsplit(cols, m.ndim)] = False] for the index triples [ps]. *)
Definition clear_at (m : arr3 bool) (ps : list pos3) : arr3 bool :=
  foldl (λ (acc : arr3 bool) (p : pos3), set3 acc p false) m ps.

(** [np.vstack(np.where(m))[:, c]]: the triples picked by the columns
    [c], which a draw keeps below the number of columns. *)
Definition pick (m : arr3 bool) (c : list nat) : list pos3 :=
  (λ k : nat, where3 m !!! k) <$> c.

(** What a draw [np.random.choice(n, k, replace=False)] may return: [k]
    distinct numbers below [n]. *)
Definition choice_outcome (n k : nat) (c : list nat) : Prop :=
  length c = k ∧ NoDup c ∧ Forall (λ x : nat, (x < n)%nat) c.

Section WithRandom.
Context {rng : Type}.

(** The generator behind [np.random.choice(n, k, replace=False)]: it maps
    the generator state to the drawn indices and the next state. *)
Variable choice : nat → nat → rng → list nat * rng.

(** [np.random.choice(n, k, replace=False)] with its argument checks:
    numpy raises ValueError when [n] is not positive or when more than
    [n] (or a negative number of) samples are asked for. *)
Definition random_choice (n : nat) (k : Z) (g : rng) : option (list nat * rng) :=
  if bool_decide ((0 < n)%nat ∧ (0 <= k <= Z.of_nat n)%Z)
  then Some (choice n (Z.to_nat k) g)
  else None.

(** [filter_boxes(pos, neg, num)] for two separate mask arrays, as
    [datagen] passes them.  [p_num > num/2] is a comparison with the true
    quotient, written here without the division; [num//2] is the floor
    quotient [num / 2] on [Z].  [None] stands for the ValueError of a
    draw. *)
Definition filter_boxes (pos neg : arr3 bool) (num : Z) (g : rng)
  : option (arr3 bool * arr3 bool * rng) :=
  let p_num := Z.of_nat (count_true pos) in
  let n_num := Z.of_nat (count_true neg) in
  '(pos', p_num', g1) ←
    (if bool_decide (num < 2 * p_num)%Z
     then '(c, g1) ← random_choice (count_true pos) (p_num - num / 2) g;
          Some (clear_at pos (pick pos c), (num / 2)%Z, g1)
     else Some (pos, p_num, g));
  '(neg', g2) ←
    (if bool_decide (num < n_num + p_num')%Z
     then '(c, g2) ← random_choice (count_true neg) (n_num - num + p_num') g1;
          Some (clear_at neg (pick neg c), g2)
     else Some (neg, g1));
  Some (pos', neg', g2).

End WithRandom.

(** A generator without state whose draw of [k] numbers is 0, ..., k-1;
    it serves to run the definitions on examples. *)
Definition first_k (n k : nat) (g : unit) : list nat * unit := (seq 0 k, g).

End Filter.
Export Filter.

(** ** Losses: [rpn_regr_loss] and [rpn_cls_loss] *)

Module Losses.
Local Open Scope R_scope.

(** [t[..., :n]] and [t[..., n:]]. *)
Definition last_to {A} (n : nat) (t : arr3 A) : arr3 A :=
  fmap (M := list) (fmap (M := list) (take n)) t.
Definition last_from {A} (n : nat) (t : arr3 A) : arr3 A :=
  fmap (M := list) (fmap (M := list) (drop n)) t.

Definition sumR (l : list R) : R := foldr Rplus 0 l.

(** [K.sum(t)]: the sum of all entries. *)
Definition K_sum (t : arr3 R) : R := sumR (flat3 t).

(** The inner function [loss(ytrue, ypred, ptrue)] of [rpn_regr_loss]. *)
Definition regr_loss (ytrue ypred ptrue : arr3 R) : R :=
  let dy := zip3 Rminus ytrue ypred in
  let sw := map3 (λ d : R, if bool_decide (Rabs d < 1) then 1 else 0) dy in
  let r1 := map3 (λ x : R, x * 0.5) (zip3 Rmult (zip3 Rmult sw dy) dy) in
  let r2 := zip3 Rmult (map3 (λ s : R, 1 - s) sw) (map3 (λ d : R, Rabs d - 0.5) dy) in
  K_sum (zip3 Rmult (zip3 Rplus r1 r2) ptrue).

Definition rpn_regr_loss (num_ancs : nat) (ytrue ypred : arr3 R) : R :=
  regr_loss (last_from (4 * num_ancs) ytrue) ypred (last_to (4 * num_ancs) ytrue).

(** The arrays handed to [K.log] by [rpn_cls_loss]. *)
Definition log_arg_pos (ppred : arr3 R) : arr3 R :=
  map3 (λ p : R, 1 / 10000 + p) ppred.
Definition log_arg_neg (ppred : arr3 R) : arr3 R :=
  map3 (λ p : R, 1 / 10000 + 1 - p) ppred.

(** The inner function [loss(postrue, negtrue, ppred)] of [rpn_cls_loss]. *)
Definition cls_loss (postrue negtrue ppred : arr3 R) : R :=
  K_sum (zip3 Rminus
           (zip3 Rmult (map3 Ropp postrue) (map3 ln (log_arg_pos ppred)))
           (zip3 Rmult negtrue (map3 ln (log_arg_neg ppred)))).

Definition rpn_cls_loss (num_ancs : nat) (ptrue ppred : arr3 R) : R :=
  cls_loss (last_to num_ancs ptrue) (last_from num_ancs ptrue) ppred.

(** *** The sums the losses are meant to compute *)

(** [t[i, j, c]] as a number. *)
Definition at3 (t : arr3 R) (i j c : nat) : R := ((t !!! i) !!! j) !!! c.

(** The sum of [f 0 + ... + f (n - 1)]. *)
Definition sum_upto (n : nat) (f : nat → R) : R := sumR (f <$> seq 0 n).

Definition smoothL1 (d : R) : R :=
  if bool_decide (Rabs d < 1) then 0.5 * d ^ 2 else Rabs d - 0.5.

Definition regr_sum (rows cols num_ancs : nat) (ytrue ypred : arr3 R) : R :=
  sum_upto rows (λ i, sum_upto cols (λ j, sum_upto (4 * num_ancs) (λ c,
    at3 ytrue i j c
    * smoothL1 (at3 ytrue i j (4 * num_ancs + c) - at3 ypred i j c)))).

Definition cls_sum (rows cols num_ancs : nat) (ptrue ppred : arr3 R) : R :=
  sum_upto rows (λ i, sum_upto cols (λ j, sum_upto num_ancs (λ c,
    - at3 ptrue i j c * ln (at3 ppred i j c + 1 / 10000)
    - at3 ptrue i j (num_ancs + c) * ln (1 - at3 ppred i j c + 1 / 10000)))).

End Losses.
Export Losses.

(** ** The data generator: [datagen] *)

Module Data.
Local Open Scope R_scope.

Definition b2r (b : bool) : R := if b then 1 else 0.
Definition b2z (b : bool) : Z := if b then 1%Z else 0%Z.

(** [np.concatenate((a, b), axis=-1)]. *)
Definition concat_last {A} (a b : arr3 A) : arr3 A :=
  zip_with (zip_with app) a b.

(** [t.repeat(k, axis=-1)]: every entry of the last axis [k] times. *)
Definition repeat_last {A} (k : nat) (t : arr3 A) : arr3 A :=
  fmap (M := list) (fmap (M := list) (λ c : list A, c ≫= replicate k)) t.

(** [t.reshape((t.shape[0], t.shape[1], -1))] for [t] of rank four. *)
Definition merge_last {A} (t : arr3 (list A)) : arr3 A :=
  fmap (M := list) (fmap (M := list) (concat (A := A))) t.

(** [np.arange(start, stop)]. *)
Definition arange (start stop : Z) : list Z :=
  (λ k : nat, (start + Z.of_nat k)%Z) <$> seq 0 (Z.to_nat (stop - start)).

(** [csv[csv[:,0] == i][:, [2,1,4,3]]]: the rows of image [i], reordered
    to [y1; x1; y2; x2]. *)
Definition gt_boxes (csv : list (list Z)) (i : Z) : list box :=
  (λ r : list Z, IZR <$> [r !!! 2%nat; r !!! 1%nat; r !!! 4%nat; r !!! 3%nat])
    <$> filter (λ r : list Z, r !!! 0%nat = i) csv.

(** One item of the generator: [(x_img, [y_cls, y_regr])], each with the
    leading batch axis of length one added by [np.expand_dims(_, 0)]. *)
Record sample (image : Type) : Type := Sample {
  x_img : list image;
  y_cls : list (arr3 Z);
  y_regr : list (arr3 R)
}.
Arguments Sample {image} _ _ _.
Arguments x_img {image} _.
Arguments y_cls {image} _.
Arguments y_regr {image} _.

(** [if ancs is None: ancs = get_anchors(200, 340, [16,24,32], 4)]. *)
Definition default_ancs (ancs : option (arr3 box)) : arr3 box :=
  match ancs with
  | None => get_anchors 200 340 [16; 24; 32] 4
  | Some a => a
  end.

Section WithWorld.
Context {rng image : Type}.
Variable choice : nat → nat → rng → list nat * rng.

(** [imread] of the picture of image [i]; [None] when it cannot be read. *)
Variable imread : Z → option image.

(** The table read by [np.loadtxt] from gt.txt. *)
Variable csv : list (list Z).

(** The body of the loop for image [i]: the item it yields and the next
    state of the random generator, or [None] when it raises. *)
Definition datagen_body (ancs : arr3 box) (i : Z) (g : rng)
  : option (sample image * rng) :=
  '(pos, neg, gtbs) ← anchors_vs_gt ancs (gt_boxes csv i) 0.3 0.7;
  let gtbs := merge_last gtbs in
  '(pos, neg, g') ← filter_boxes choice pos neg 256 g;
  img ← imread i;
  Some (Sample [img]
               [map3 b2z (concat_last pos neg)]
               [concat_last (map3 b2r (repeat_last 4 pos)) gtbs],
        g').

(** The loop [for i in idx]: every index visited, with the item yielded
    there; the run ends at the first index whose body raises. *)
Fixpoint datagen_loop (ancs : arr3 box) (idx : list Z) (g : rng)
  : list (Z * option (sample image)) :=
  match idx with
  | [] => []
  | i :: rest =>
      match datagen_body ancs i g with
      | Some (s, g') => (i, Some s) :: datagen_loop ancs rest g'
      | None => [(i, None)]
      end
  end.

Definition datagen (start stop : Z) (ancs : option (arr3 box)) (shuffle : bool)
    (g : rng) : list (Z * option (sample image)) :=
  let ancs := default_ancs ancs in
  let idx := arange start stop in
  datagen_loop ancs idx g.

End WithWorld.

(** *** What the targets are meant to hold *)

(** The target pair [s] carries the masks [pos], [neg] and the encoded
    boxes [params] in the channel ranges the losses slice. *)
Definition laid_out {image} (anc_num : nat) (pos neg : arr3 bool)
    (params : arr3 (list R)) (s : sample image) : Prop :=
  ∃ yc yr,
    y_cls s = [yc] ∧ y_regr s = [yr]
    ∧ last_to anc_num yc = map3 b2z pos
    ∧ last_from anc_num yc = map3 b2z neg
    ∧ last_to (4 * anc_num) yr = map3 b2r (repeat_last 4 pos)
    ∧ last_from (4 * anc_num) yr = merge_last params.

(** What the two losses read from the targets of [s]: [rpn_cls_loss]
    reads [pos] and [neg] as postrue and negtrue, [rpn_regr_loss] reads
    [pos], each entry four times, as ptrue and the encoded boxes as the
    regression target. *)
Definition losses_read {image} (anc_num : nat) (pos neg : arr3 bool)
    (params : arr3 (list R)) (s : sample image) : Prop :=
  ∀ yc yr, y_cls s = [yc] → y_regr s = [yr] →
    (∀ ppred, rpn_cls_loss anc_num (map3 IZR yc) ppred
              = cls_loss (map3 b2r pos) (map3 b2r neg) ppred)
    ∧ (∀ ypred, rpn_regr_loss anc_num yr ypred
                = regr_loss (merge_last params) ypred
                            (map3 b2r (repeat_last 4 pos))).

(** The robust loss summed over the channels of the anchors marked in
    [pos]: channel c belongs to anchor c / 4. *)
Definition marked_regr_sum (rows cols anc_num : nat) (pos : arr3 bool)
    (target ypred : arr3 R) : R :=
  sum_upto rows (λ i, sum_upto cols (λ j, sum_upto (4 * anc_num) (λ c,
    b2r (default false (get3 pos i j (c / 4)))
    * smoothL1 (at3 target i j c - at3 ypred i j c)))).

End Data.
Export Data.

(** ** The search for saved models *)

(** The cell that lists [models/gtsdb_rpn/], keeps the names matched by
    [gtsdb_rpn-(\d+)\.hdf5] and loads the model of the greatest number.
    File names are strings of bytes; [\d] is read on the ASCII digits, so
    the model is that of the cell for ASCII names. *)
Module Checkpoints.
Import String Ascii.
Local Open Scope string_scope.

(** [\d] on one character. *)
Definition is_digit (c : ascii) : bool :=
  (48 <=? nat_of_ascii c)%nat && (nat_of_ascii c <=? 57)%nat.

Definition digit_value (c : ascii) : nat := nat_of_ascii c - 48.

(** [\d*] at the start of [s], greedy: the longest run of digits and what
    follows it. *)
Fixpoint span_digits (s : string) : string * string :=
  match s with
  | EmptyString => (EmptyString, EmptyString)
  | String c s' =>
      if is_digit c
      then let '(ds, rest) := span_digits s' in (String c ds, rest)
      else (EmptyString, s)
  end.

(** A literal part of the pattern at the start of [s]: what follows it,
    or [None] when [s] does not start with [p]. *)
Fixpoint strip_prefix (p s : string) : option string :=
  match p with
  | EmptyString => Some s
  | String a p' =>
      match s with
      | EmptyString => None
      | String b s' => if Ascii.eqb a b then strip_prefix p' s' else None
      end
  end.

(** [re.compile('gtsdb_rpn-(\d+)\.hdf5').match(fn)]: group 1 of the
    match, [None] when [fn] does not match.  [match] anchors the pattern
    at the start of the name only.  After the digits the pattern asks for
    a dot, which is no digit, so only the longest run of digits can match. *)
Definition match_checkpoint (fn : string) : option string :=
  rest ← strip_prefix "gtsdb_rpn-" fn;
  match span_digits rest with
  | (EmptyString, _) => None
  | (ds, rest') => _ ← strip_prefix ".hdf5" rest'; Some ds
  end.

(** [int(ds)] for a string of digits. *)
Fixpoint int_acc (ds : string) (acc : nat) : nat :=
  match ds with
  | EmptyString => acc
  | String c ds' => int_acc ds' (10 * acc + digit_value c)
  end.

Definition int_of_digits (ds : string) : nat := int_acc ds 0.

(** [int(m.group(1))] for the match [m] of [fn], when there is one. *)
Definition epoch_of (fn : string) : option nat :=
  int_of_digits <$> match_checkpoint fn.

(** [temp]: the numbers of the matching names of the listing. *)
Definition saved_epochs (files : list string) : list nat := omap epoch_of files.

(** ['{:d}'.format(n)]. *)
Definition decimal (n : nat) : string :=
  DecimalString.NilEmpty.string_of_uint (Nat.to_uint n).

(** ['gtsdb_rpn-{:d}.hdf5'.format(n)], the name inside the directory, and
    the path handed to [load_model]. *)
Definition checkpoint_name (n : nat) : string :=
  "gtsdb_rpn-" ++ decimal n ++ ".hdf5".

Definition checkpoint_path (n : nat) : string :=
  "models/gtsdb_rpn/" ++ checkpoint_name n.

(** What the cell does for the model: build a new one, or load a path. *)
Inductive model_source : Type :=
  | BuildNew
  | LoadFrom (path : string).

(** [if len(temp) == 0: ... else: load_model(...format(max(temp)))]. *)
Definition choose_model (files : list string) : model_source :=
  match saved_epochs files with
  | [] => BuildNew
  | e :: es => LoadFrom (checkpoint_path (foldl Nat.max e es))
  end.

End Checkpoints.
Export Checkpoints.

(** ** Vocabulary for further facts about boxes *)

Module BoxShapes.
Local Open Scope R_scope.

(** The corners of [b] are in order: y1 <= y2 and x1 <= x2. *)
Definition ordered (b : box) : Prop := ix 0 b <= ix 2 b ∧ ix 1 b <= ix 3 b.

(** [b] has strictly positive height and width. *)
Definition positive (b : box) : Prop := ix 0 b < ix 2 b ∧ ix 1 b < ix 3 b.

(** [b + [dy, dx, dy, dx]]: the box moved by (dy, dx). *)
Definition shift (dy dx : R) (b : box) : box := zip_with Rplus b [dy; dx; dy; dx].

End BoxShapes.
Export BoxShapes.

(** ** Facts about boxes *)

Ltac minmax :=
  unfold Rmax, Rmin; repeat (destruct (Rle_dec _ _)); try lra; try nra.

Section BoxFacts.
Local Open Scope R_scope.

Lemma intersect_eq (y1 x1 y2 x2 v1 u1 v2 u2 : R) :
  intersect [y1; x1; y2; x2] [v1; u1; v2; u2]
  = Rmax (Rmin x2 u2 - Rmax x1 u1) 0 * Rmax (Rmin y2 v2 - Rmax y1 v1) 0.
Proof. reflexivity. Qed.

Lemma union_eq (y1 x1 y2 x2 v1 u1 v2 u2 ia : R) :
  union [y1; x1; y2; x2] [v1; u1; v2; u2] ia
  = (y2 - y1) * (x2 - x1) + (v2 - v1) * (u2 - u1) - ia.
Proof. reflexivity. Qed.

Lemma overlap_bounds (lo1 hi1 lo2 hi2 : R) :
  lo1 <= hi1 → lo2 <= hi2 →
  0 <= overlap lo1 hi1 lo2 hi2
  ∧ overlap lo1 hi1 lo2 hi2 <= hi1 - lo1
  ∧ overlap lo1 hi1 lo2 hi2 <= hi2 - lo2.
Proof. intros H1 H2. unfold overlap. minmax. Qed.

Lemma Rmax_comm0 (a : R) : Rmax a 0 = Rmax 0 a.
Proof. apply Rmax_comm. Qed.

Lemma intersect_inter_area (y1 x1 y2 x2 v1 u1 v2 u2 : R) :
  intersect [y1; x1; y2; x2] [v1; u1; v2; u2]
  = inter_area [y1; x1; y2; x2] [v1; u1; v2; u2].
Proof.
  rewrite intersect_eq. unfold inter_area, overlap, ix. simpl.
  rewrite !Rmax_comm0. ring.
Qed.

(** The points common to two boxes are the points of the box spanned by
    the larger lower corner and the smaller upper corner. *)
Lemma in_box_both (y1 x1 y2 x2 v1 u1 v2 u2 y x : R) :
  in_box [y1; x1; y2; x2] y x ∧ in_box [v1; u1; v2; u2] y x
  ↔ in_box [Rmax y1 v1; Rmax x1 u1; Rmin y2 v2; Rmin x2 u2] y x.
Proof. unfold in_box, ix. simpl. minmax. Qed.

(** When that box is not empty its area is [inter_area]; otherwise
    [inter_area] is 0. *)
Lemma inter_area_meet (y1 x1 y2 x2 v1 u1 v2 u2 : R) :
  let meet := [Rmax y1 v1; Rmax x1 u1; Rmin y2 v2; Rmin x2 u2] in
  (ix 0 meet <= ix 2 meet ∧ ix 1 meet <= ix 3 meet →
     inter_area [y1; x1; y2; x2] [v1; u1; v2; u2] = area meet)
  ∧ (ix 2 meet < ix 0 meet ∨ ix 3 meet < ix 1 meet →
     inter_area [y1; x1; y2; x2] [v1; u1; v2; u2] = 0).
Proof.
  unfold inter_area, area, overlap, ix. simpl. split.
  - intros [Hy Hx]. rewrite (Rmax_right 0 (Rmin y2 v2 - _)), (Rmax_right 0 (Rmin x2 u2 - _)) by lra.
    reflexivity.
  - intros [Hy | Hx].
    + rewrite (Rmax_left 0 (Rmin y2 v2 - _)) by lra. ring.
    + rewrite (Rmax_left 0 (Rmin x2 u2 - _)) by lra. ring.
Qed.

Lemma intersect_bounds (y1 x1 y2 x2 v1 u1 v2 u2 : R) :
  y1 <= y2 → x1 <= x2 → v1 <= v2 → u1 <= u2 →
  let i := intersect [y1; x1; y2; x2] [v1; u1; v2; u2] in
  0 <= i ∧ i <= (y2 - y1) * (x2 - x1) ∧ i <= (v2 - v1) * (u2 - u1).
Proof.
  intros Hy Hx Hv Hu. cbv zeta. rewrite intersect_inter_area.
  unfold inter_area, ix. simpl.
  destruct (overlap_bounds y1 y2 v1 v2 Hy Hv) as (A0 & A1 & A2).
  destruct (overlap_bounds x1 x2 u1 u2 Hx Hu) as (B0 & B1 & B2).
  repeat split; nra.
Qed.

Lemma quotient_unit_interval (i u : R) : 0 <= i → i <= u → 0 < u → 0 <= i / u <= 1.
Proof.
  intros Hi Hiu Hu. split.
  - apply Rmult_le_pos; [lra | left; apply Rinv_0_lt_compat; lra].
  - apply (Rmult_le_reg_r u); [lra |].
    unfold Rdiv. rewrite Rmult_assoc, Rinv_l by lra. lra.
Qed.



(** C8 as stated fails: the unit square has positive width and height,
    yet together with the box [0; 0; -1; 1], whose second row lies above
    its first, the union area is 0. *)
Lemma union_positive_counterexample :
  let b1 := [0; 0; 1; 1] in
  let b2 := [0; 0; -1; 1] in
  (0 < ix 3 b1 - ix 1 b1 ∧ 0 < ix 2 b1 - ix 0 b1)
  ∧ ¬ 0 < union b1 b2 (intersect b1 b2).
Proof.
  cbv zeta. rewrite intersect_eq, union_eq. unfold ix. simpl.
  split; [lra |].
  rewrite (Rmax_right (Rmin 1 (-1) - Rmax 0 0) 0) by minmax. lra.
Qed.

(** C8, amended.  For boxes [y1; x1; y2; x2] that both have y2 >= y1 and
    x2 >= x1, one of them with strictly positive width and height, the
    union area handed to the division of [iou] is strictly positive, so
    [iou] is a quotient by a non-zero number. *)
Theorem union_positive (y1 x1 y2 x2 v1 u1 v2 u2 : R) :
  y1 <= y2 → x1 <= x2 → v1 <= v2 → u1 <= u2 →
  (y1 < y2 ∧ x1 < x2) ∨ (v1 < v2 ∧ u1 < u2) →
  let b1 := [y1; x1; y2; x2] in
  let b2 := [v1; u1; v2; u2] in
  0 < union b1 b2 (intersect b1 b2)
  ∧ iou b1 b2 * union b1 b2 (intersect b1 b2) = intersect b1 b2.
Proof.
  intros Hy Hx Hv Hu Hpos b1 b2. subst b1 b2.
  pose proof (intersect_bounds y1 x1 y2 x2 v1 u1 v2 u2 Hy Hx Hv Hu) as HB.
  cbv zeta in HB. destruct HB as (I0 & I1 & I2).
  assert (HU : 0 < union [y1; x1; y2; x2] [v1; u1; v2; u2]
                     (intersect [y1; x1; y2; x2] [v1; u1; v2; u2])).
  { rewrite union_eq. destruct Hpos as [[? ?] | [? ?]]; nra. }
  split; [exact HU |].
  unfold iou. cbv zeta. unfold Rdiv. rewrite Rmult_assoc, Rinv_l by lra. ring.
Qed.

Lemma union_positive_witness :
  let b1 := [0; 0; 1; 1] in
  let b2 := [0; 0; 0; 0] in
  0 < union b1 b2 (intersect b1 b2)
  ∧ iou b1 b2 * union b1 b2 (intersect b1 b2) = intersect b1 b2.
Proof. apply (union_positive 0 0 1 1 0 0 0 0); lra. Defined.

(** Two 2x2 squares that share a unit square: IoU 1/(4 + 4 - 1). *)
Example iou_shifted_squares : iou [0; 0; 2; 2] [1; 1; 3; 3] = 1 / 7.
Proof.
  unfold iou. cbv zeta. rewrite intersect_eq, union_eq.
  replace (Rmin 2 3) with 2 by minmax. replace (Rmax 0 1) with 1 by minmax.
  replace (Rmax (2 - 1) 0) with 1 by minmax. lra.
Qed.

(** Disjoint boxes have IoU 0. *)
Example iou_disjoint : iou [0; 0; 1; 1] [2; 2; 3; 3] = 0.
Proof.
  unfold iou. cbv zeta. rewrite intersect_eq, union_eq.
  replace (Rmin 1 3) with 1 by minmax. replace (Rmax 0 2) with 2 by minmax.
  replace (Rmax (1 - 2) 0) with 0 by minmax. lra.
Qed.

(** What [coords2param] computes on one anchor and one ground-truth box. *)
Lemma coords2param_eq (y1 x1 y2 x2 gy1 gx1 gy2 gx2 : R) :
  coords2param [y1; x1; y2; x2] [gy1; gx1; gy2; gx2]
  = [ (gx1 - x1) / (x2 - x1);
      (gx1 - x1) / (y2 - y1);
      ln ((gx2 - gx1) / (x2 - x1));
      ln ((gy2 - gy1) / (y2 - y1)) ].
Proof. reflexivity. Qed.

(** The entries tx, tw and th are those of the corner parametrization. *)
Lemma coords2param_tx_tw_th (anc gtb : box) (k : nat) :
  k ≠ 1%nat → coords2param anc gtb !! k = param_spec anc gtb !! k.
Proof. intros Hk. destruct k as [| [| [| [| k]]]]; try reflexivity. congruence. Qed.

(** C1 fails on the code.  For the anchor [0; 0; 4; 4] and the
    ground-truth box [2; 1; 4; 3] the parametrization asks for
    ty = (gy1 - y1) / ha = 2/4, while [coords2param] returns
    ty = (gx1 - x1) / ha = 1/4: its second entry is computed from the x
    coordinates. *)
Theorem coords2param_ty_from_x :
  let anc := [0; 0; 4; 4] in
  let gtb := [2; 1; 4; 3] in
  (0 < ix 3 anc - ix 1 anc ∧ 0 < ix 2 anc - ix 0 anc
   ∧ 0 < ix 3 gtb - ix 1 gtb ∧ 0 < ix 2 gtb - ix 0 gtb)
  ∧ coords2param anc gtb !! 1%nat = Some (1 / 4)
  ∧ param_spec anc gtb !! 1%nat = Some (2 / 4)
  ∧ coords2param anc gtb ≠ param_spec anc gtb.
Proof.
  cbv zeta. unfold coords2param, param_spec, ix. simpl.
  split; [lra |]. split; [f_equal; lra |]. split; [f_equal; lra |].
  intros Heq. injection Heq as Hty. lra.
Qed.

End BoxFacts.

(** ** Facts about anchor generation *)

Section AnchorFacts.
Local Open Scope R_scope.

Lemma indices_plane_total (rows cols i j : nat) (f : nat → nat → R) :
  (i < rows)%nat → (j < cols)%nat →
  (((λ i' : nat, (λ j' : nat, f i' j') <$> seq 0 cols) <$> seq 0 rows) !!! i) !!! j
  = f i j.
Proof.
  intros Hi Hj.
  rewrite (list_lookup_total_correct _ i ((λ j' : nat, f i j') <$> seq 0 cols)).
  - apply list_lookup_total_correct.
    rewrite list_lookup_fmap, lookup_seq_lt by lia. reflexivity.
  - rewrite list_lookup_fmap, lookup_seq_lt by lia. reflexivity.
Qed.

(** After the transposition the entry at (i, j) is the pair [i; j]. *)
Lemma transpose_indices (rows cols : nat) :
  transpose_120 (indices rows cols)
  = (λ i : nat, (λ j : nat, [INR i; INR j]) <$> seq 0 cols) <$> seq 0 rows.
Proof.
  unfold transpose_120, indices. apply list_eq. intros i.
  rewrite list_lookup_imap, !list_lookup_fmap.
  destruct (decide (i < rows)%nat) as [Hi | Hi].
  - rewrite lookup_seq_lt by lia. simpl. f_equal.
    apply list_eq. intros j.
    rewrite list_lookup_imap, !list_lookup_fmap.
    destruct (decide (j < cols)%nat) as [Hj | Hj].
    + rewrite lookup_seq_lt by lia. simpl. do 2 f_equal.
      * apply (indices_plane_total rows cols i j (λ i' _, INR i')); lia.
      * f_equal. apply (indices_plane_total rows cols i j (λ _ j', INR j')); lia.
    + rewrite lookup_seq_ge by lia. reflexivity.
  - rewrite lookup_seq_ge by lia. reflexivity.
Qed.

Lemma get_anchors_cells (rows cols : nat) (sizes : list R) (stride : R) :
  get_anchors rows cols sizes stride
  = (λ i : nat, (λ j : nat, cell_anchors sizes stride [INR i; INR j]) <$> seq 0 cols)
      <$> seq 0 rows.
Proof.
  unfold get_anchors, add_bcast, repeat2, expand_dims2, tile2, map3.
  rewrite transpose_indices.
  rewrite <- !list_fmap_compose. apply list_fmap_ext. intros _ i _. simpl.
  rewrite <- !list_fmap_compose. apply list_fmap_ext. intros _ j _. reflexivity.
Qed.

Lemma cell_anchors_length (sizes : list R) (stride : R) (v : list R) :
  length (cell_anchors sizes stride v) = length sizes.
Proof.
  unfold cell_anchors, half_extents. simpl.
  rewrite length_zip_with, length_app, length_replicate, length_fmap. simpl. lia.
Qed.

Lemma cell_anchors_lookup (sizes : list R) (stride y x s : R) (a : nat) :
  sizes !! a = Some s →
  cell_anchors sizes stride [y; x] !! a
  = Some [ y * stride + 0.5 + s * -0.5; x * stride + 0.5 + s * -0.5;
           y * stride + 0.5 + s * 0.5; x * stride + 0.5 + s * 0.5 ].
Proof.
  intros Hs. unfold cell_anchors, half_extents. simpl.
  rewrite app_nil_r, lookup_zip_with, list_lookup_fmap, Hs.
  rewrite lookup_replicate_2 by (apply lookup_lt_Some in Hs; exact Hs).
  reflexivity.
Qed.

(** The anchor of size 16 at the first grid cell, stride 4. *)
Example get_anchors_first :
  get3 (get_anchors 1 1 [16] 4) 0 0 0 = Some [-7.5; -7.5; 8.5; 8.5].
Proof.
  rewrite get_anchors_cells. unfold get3. simpl.
  f_equal. f_equal; [lra | f_equal; [lra | f_equal; [lra | f_equal; lra]]].
Qed.

(** C9.  [get_anchors rows cols sizes stride] has shape
    (rows, cols, len(sizes)) in boxes of four numbers, and its entry at
    (i, j, a) is the square of side sizes[a] centred at
    cy = i*stride + 0.5, cx = j*stride + 0.5, that is
    [cy - sizes[a]/2; cx - sizes[a]/2; cy + sizes[a]/2; cx + sizes[a]/2];
    width and height of every generated anchor are equal. *)
Theorem get_anchors_spec (rows cols : nat) (sizes : list R) (stride : R)
    (i j a : nat) (s : R) :
  (i < rows)%nat → (j < cols)%nat → sizes !! a = Some s →
  let cy := INR i * stride + 0.5 in
  let cx := INR j * stride + 0.5 in
  let anc := [cy - s / 2; cx - s / 2; cy + s / 2; cx + s / 2] in
  shape3 (get_anchors rows cols sizes stride) rows cols (length sizes)
  ∧ get3 (get_anchors rows cols sizes stride) i j a = Some anc
  ∧ ix 3 anc - ix 1 anc = s ∧ ix 2 anc - ix 0 anc = s.
Proof.
  intros Hi Hj Hs cy cx anc. rewrite get_anchors_cells. split; [| split].
  - split; [rewrite length_fmap, length_seq; reflexivity |].
    apply Forall_fmap, Forall_forall. intros i' _. simpl. split.
    + rewrite length_fmap, length_seq. reflexivity.
    + apply Forall_fmap, Forall_forall. intros j' _. simpl.
      apply cell_anchors_length.
  - unfold get3. rewrite list_lookup_fmap, lookup_seq_lt by lia. simpl.
    rewrite list_lookup_fmap, lookup_seq_lt by lia. simpl.
    rewrite (cell_anchors_lookup sizes stride (INR i) (INR j) s a Hs).
    subst anc cy cx. f_equal.
    f_equal; [lra | f_equal; [lra | f_equal; [lra | f_equal; lra]]].
  - subst anc. unfold ix. simpl. split; lra.
Qed.

Lemma get_anchors_spec_witness :
  let cy := INR 1 * 4 + 0.5 in
  let cx := INR 2 * 4 + 0.5 in
  let anc := [cy - 24 / 2; cx - 24 / 2; cy + 24 / 2; cx + 24 / 2] in
  shape3 (get_anchors 2 3 [16; 24; 32] 4) 2 3 (length [16; 24; 32])
  ∧ get3 (get_anchors 2 3 [16; 24; 32] 4) 1 2 1 = Some anc
  ∧ ix 3 anc - ix 1 anc = 24 ∧ ix 2 anc - ix 0 anc = 24.
Proof.
  apply (get_anchors_spec 2 3 [16; 24; 32] 4 1 2 1 24); [lia | lia | reflexivity].
Defined.

End AnchorFacts.

(** ** Facts about arrays *)

Section ArrayFacts.

Lemma get3_map3 {A B} (f : A → B) (t : arr3 A) (i j x : nat) :
  get3 (map3 f t) i j x = f <$> get3 t i j x.
Proof.
  unfold get3, map3. rewrite list_lookup_fmap.
  destruct (t !! i) as [row |]; [simpl | reflexivity].
  rewrite list_lookup_fmap.
  destruct (row !! j) as [cell |]; [simpl | reflexivity].
  apply list_lookup_fmap.
Qed.

Lemma get3_zip3 {A B C} (f : A → B → C) (a : arr3 A) (b : arr3 B) (i j x : nat) :
  get3 (zip3 f a b) i j x
  = u ← get3 a i j x; v ← get3 b i j x; Some (f u v).
Proof.
  unfold get3, zip3. rewrite lookup_zip_with.
  destruct (a !! i) as [ra |]; [simpl | reflexivity].
  destruct (b !! i) as [rb |]; simpl.
  - rewrite lookup_zip_with.
    destruct (ra !! j) as [ca |]; [simpl | reflexivity].
    destruct (rb !! j) as [cb |]; simpl.
    + apply lookup_zip_with.
    + destruct (ca !! x); reflexivity.
  - destruct (ra !! j) as [ca |]; [simpl | reflexivity].
    destruct (ca !! x); reflexivity.
Qed.

Lemma get3_is_Some {A} (t : arr3 A) (r c k i j x : nat) :
  shape3 t r c k → i < r → j < c → x < k → is_Some (get3 t i j x).
Proof.
  intros [Hr Hrows] Hi Hj Hx. unfold get3.
  destruct (lookup_lt_is_Some_2 t i) as [row Hrow]; [lia |].
  rewrite Hrow. simpl.
  destruct (proj1 (Forall_lookup _ _) Hrows i row Hrow) as [Hc Hcells].
  destruct (lookup_lt_is_Some_2 row j) as [cell Hcell]; [lia |].
  rewrite Hcell. simpl.
  pose proof (proj1 (Forall_lookup _ _) Hcells j cell Hcell) as Hk.
  simpl in Hk. apply lookup_lt_is_Some_2. lia.
Qed.

Lemma shape3_map3 {A B} (f : A → B) (t : arr3 A) (r c k : nat) :
  shape3 t r c k → shape3 (map3 f t) r c k.
Proof.
  intros [Hr Hrows]. split; [unfold map3; rewrite length_fmap; exact Hr |].
  unfold map3. apply Forall_fmap. eapply Forall_impl; [exact Hrows |].
  intros row [Hc Hcells]. simpl. split; [rewrite length_fmap; exact Hc |].
  apply Forall_fmap. eapply Forall_impl; [exact Hcells |].
  intros cell Hk. simpl. rewrite length_fmap. exact Hk.
Qed.

Lemma shape3_lookup {A} (t : arr3 A) (r c k : nat) :
  shape3 t r c k ↔
  length t = r
  ∧ ∀ i row, t !! i = Some row →
      length row = c ∧ ∀ j cell, row !! j = Some cell → length cell = k.
Proof.
  unfold shape3. rewrite Forall_lookup. split.
  - intros [Hr H]. split; [exact Hr |]. intros i row Hrow.
    destruct (H i row Hrow) as [Hc Hcells]. split; [exact Hc |].
    rewrite Forall_lookup in Hcells. exact Hcells.
  - intros [Hr H]. split; [exact Hr |]. intros i row Hrow.
    destruct (H i row Hrow) as [Hc Hcells]. split; [exact Hc |].
    rewrite Forall_lookup. exact Hcells.
Qed.

Lemma shape3_zip3 {A B C} (f : A → B → C) (a : arr3 A) (b : arr3 B) (r c k : nat) :
  shape3 a r c k → shape3 b r c k → shape3 (zip3 f a b) r c k.
Proof.
  rewrite !shape3_lookup. intros [Ha HA] [Hb HB]. unfold zip3. split.
  - rewrite length_zip_with. lia.
  - intros i row Hrow. apply lookup_zip_with_Some in Hrow.
    destruct Hrow as (ra & rb & -> & Hra & Hrb).
    destruct (HA i ra Hra) as [Hca HcA]. destruct (HB i rb Hrb) as [Hcb HcB].
    split; [rewrite length_zip_with; lia |].
    intros j cell Hcell. apply lookup_zip_with_Some in Hcell.
    destruct Hcell as (ca & cb & -> & Hca' & Hcb').
    rewrite length_zip_with.
    rewrite (HcA j ca Hca'), (HcB j cb Hcb'). lia.
Qed.

Lemma concat_fmap_fmap {A B} (f : A → B) (ls : list (list A)) :
  concat (fmap (M := list) (fmap (M := list) f) ls) = f <$> concat ls.
Proof.
  induction ls as [| l ls IH]; [reflexivity |].
  rewrite fmap_cons, !concat_cons, fmap_app, IH. reflexivity.
Qed.

Lemma flat3_map3 {A B} (f : A → B) (t : arr3 A) :
  flat3 (map3 f t) = f <$> flat3 t.
Proof. unfold flat3, map3. rewrite !concat_fmap_fmap. reflexivity. Qed.

End ArrayFacts.

(** ** Facts about the losses *)

Section LossFacts.
Local Open Scope R_scope.

Lemma sumR_app (l1 l2 : list R) : sumR (l1 ++ l2) = sumR l1 + sumR l2.
Proof.
  induction l1 as [| x l1 IH]; simpl; [lra |].
  unfold sumR in *. simpl. rewrite IH. lra.
Qed.

Lemma sumR_concat (ls : list (list R)) : sumR (concat ls) = sumR (sumR <$> ls).
Proof.
  induction ls as [| l ls IH]; [reflexivity |].
  rewrite concat_cons, sumR_app, IH. reflexivity.
Qed.

Lemma sum_upto_ext (n : nat) (f g : nat → R) :
  (∀ i, (i < n)%nat → f i = g i) → sum_upto n f = sum_upto n g.
Proof.
  intros H. unfold sum_upto. f_equal. apply list_fmap_ext.
  intros k i Hk. apply lookup_seq in Hk. destruct Hk as [-> Hk]. apply H. lia.
Qed.

Lemma sum_upto_S (n : nat) (f : nat → R) :
  sum_upto (S n) f = f 0%nat + sum_upto n (λ i, f (S i)).
Proof.
  unfold sum_upto. simpl. rewrite <- fmap_S_seq, <- list_fmap_compose.
  reflexivity.
Qed.

Lemma sumR_fmap_lookup {X} `{Inhabited X} (g : X → R) (l : list X) :
  sumR (g <$> l) = sum_upto (length l) (λ i, g (l !!! i)).
Proof.
  induction l as [| x l IH]; [reflexivity |].
  simpl length. rewrite sum_upto_S.
  change (sumR (g <$> x :: l)) with (g x + sumR (g <$> l)).
  rewrite IH. reflexivity.
Qed.

Lemma sumR_lookup (l : list R) :
  sumR l = sum_upto (length l) (λ i, l !!! i).
Proof. rewrite <- (sumR_fmap_lookup (λ x, x)), list_fmap_id. reflexivity. Qed.

Lemma K_sum_nested (t : arr3 R) :
  K_sum t = sumR ((λ row : list (list R), sumR (sumR <$> row)) <$> t).
Proof.
  unfold K_sum, flat3.
  rewrite sumR_concat, <- concat_fmap_fmap, sumR_concat, <- list_fmap_compose.
  reflexivity.
Qed.

(** [K.sum] of an array of shape (r, c, k) is the triple sum of its entries. *)
Lemma K_sum_shape (t : arr3 R) (r c k : nat) :
  shape3 t r c k →
  K_sum t = sum_upto r (λ i, sum_upto c (λ j, sum_upto k (λ x, at3 t i j x))).
Proof.
  intros Hs. apply shape3_lookup in Hs. destruct Hs as [Hr Hrows].
  rewrite K_sum_nested, sumR_fmap_lookup, Hr.
  apply sum_upto_ext. intros i Hi.
  destruct (lookup_lt_is_Some_2 t i) as [row Hrow]; [lia |].
  destruct (Hrows i row Hrow) as [Hc Hcells].
  unfold at3. rewrite (list_lookup_total_correct _ _ _ Hrow).
  rewrite sumR_fmap_lookup, Hc.
  apply sum_upto_ext. intros j Hj.
  destruct (lookup_lt_is_Some_2 row j) as [cell Hcell]; [lia |].
  rewrite (list_lookup_total_correct _ _ _ Hcell).
  rewrite sumR_lookup, (Hcells j cell Hcell). reflexivity.
Qed.

Lemma at3_get3 (t : arr3 R) (i j x : nat) (v : R) :
  get3 t i j x = Some v → at3 t i j x = v.
Proof.
  unfold get3, at3. intros H.
  destruct (t !! i) as [row |] eqn:Hrow; [simpl in H | discriminate].
  destruct (row !! j) as [cell |] eqn:Hcell; [simpl in H | discriminate].
  rewrite (list_lookup_total_correct _ _ _ Hrow).
  rewrite (list_lookup_total_correct _ _ _ Hcell).
  apply list_lookup_total_correct. exact H.
Qed.

Lemma get3_last_to {A} (n : nat) (t : arr3 A) (i j x : nat) :
  (x < n)%nat → get3 (last_to n t) i j x = get3 t i j x.
Proof.
  intros Hx. unfold get3, last_to. rewrite list_lookup_fmap.
  destruct (t !! i) as [row |]; [simpl | reflexivity].
  rewrite list_lookup_fmap.
  destruct (row !! j) as [cell |]; [simpl | reflexivity].
  apply lookup_take_lt. exact Hx.
Qed.

Lemma get3_last_from {A} (n : nat) (t : arr3 A) (i j x : nat) :
  get3 (last_from n t) i j x = get3 t i j (n + x).
Proof.
  unfold get3, last_from. rewrite list_lookup_fmap.
  destruct (t !! i) as [row |]; [simpl | reflexivity].
  rewrite list_lookup_fmap.
  destruct (row !! j) as [cell |]; [simpl | reflexivity].
  apply lookup_drop.
Qed.

Lemma shape3_last_to {A} (n : nat) (t : arr3 A) (r c k : nat) :
  shape3 t r c k → (n <= k)%nat → shape3 (last_to n t) r c n.
Proof.
  intros [Hr Hrows] Hn. unfold last_to.
  split; [rewrite length_fmap; exact Hr |].
  apply Forall_fmap. eapply Forall_impl; [exact Hrows |].
  intros row [Hc Hcells]. simpl. split; [rewrite length_fmap; exact Hc |].
  apply Forall_fmap. eapply Forall_impl; [exact Hcells |].
  intros cell Hk. simpl in *. rewrite length_take. lia.
Qed.

Lemma shape3_last_from {A} (n : nat) (t : arr3 A) (r c k : nat) :
  shape3 t r c k → shape3 (last_from n t) r c (k - n).
Proof.
  intros [Hr Hrows]. unfold last_from.
  split; [rewrite length_fmap; exact Hr |].
  apply Forall_fmap. eapply Forall_impl; [exact Hrows |].
  intros row [Hc Hcells]. simpl. split; [rewrite length_fmap; exact Hc |].
  apply Forall_fmap. eapply Forall_impl; [exact Hcells |].
  intros cell Hk. simpl in *. rewrite length_drop. lia.
Qed.

(** The weighted robust loss of one entry, as the notebook computes it. *)
Lemma regr_entry (p t th : R) :
  ((if bool_decide (Rabs (t - th) < 1) then 1 else 0) * (t - th) * (t - th) * 0.5
   + (1 - (if bool_decide (Rabs (t - th) < 1) then 1 else 0))
     * (Rabs (t - th) - 0.5)) * p
  = p * smoothL1 (t - th).
Proof. unfold smoothL1. case_bool_decide; simpl; ring. Qed.

Example smoothL1_values : smoothL1 (1 / 2) = 1 / 8 ∧ smoothL1 3 = 5 / 2.
Proof.
  unfold smoothL1. split.
  - rewrite bool_decide_eq_true_2 by (rewrite Rabs_pos_eq; lra). lra.
  - rewrite bool_decide_eq_false_2 by (rewrite Rabs_pos_eq; lra).
    rewrite Rabs_pos_eq; lra.
Qed.

Lemma get3_zip3_Some {A B C} (f : A → B → C) (a : arr3 A) (b : arr3 B)
    (i j x : nat) (u : A) (v : B) (w : C) :
  get3 a i j x = Some u → get3 b i j x = Some v → w = f u v →
  get3 (zip3 f a b) i j x = Some w.
Proof. intros Ha Hb ->. rewrite get3_zip3, Ha. simpl. rewrite Hb. reflexivity. Qed.

Lemma get3_map3_Some {A B} (f : A → B) (t : arr3 A) (i j x : nat) (u : A) (w : B) :
  get3 t i j x = Some u → w = f u → get3 (map3 f t) i j x = Some w.
Proof. intros Ht ->. rewrite get3_map3, Ht. reflexivity. Qed.

Ltac entrywise :=
  repeat first
    [ eassumption | eapply get3_zip3_Some | eapply get3_map3_Some | reflexivity ].

(** The inner regression loss as a triple sum. *)
Lemma regr_loss_sum (rows cols k : nat) (ytrue ypred ptrue : arr3 R) :
  shape3 ytrue rows cols k → shape3 ypred rows cols k → shape3 ptrue rows cols k →
  regr_loss ytrue ypred ptrue
  = sum_upto rows (λ i, sum_upto cols (λ j, sum_upto k (λ c,
      at3 ptrue i j c * smoothL1 (at3 ytrue i j c - at3 ypred i j c)))).
Proof.
  intros Hyt Hyp Hpt. unfold regr_loss.
  rewrite (K_sum_shape _ rows cols k)
    by (repeat first [ apply shape3_zip3 | apply shape3_map3 ]; assumption).
  apply sum_upto_ext. intros i Hi. apply sum_upto_ext. intros j Hj.
  apply sum_upto_ext. intros c Hc.
  destruct (get3_is_Some ptrue _ _ _ i j c Hpt) as [p Hpv]; [lia .. |].
  destruct (get3_is_Some ytrue _ _ _ i j c Hyt) as [t Htv]; [lia .. |].
  destruct (get3_is_Some ypred _ _ _ i j c Hyp) as [th Hth]; [lia .. |].
  rewrite (at3_get3 _ _ _ _ _ Hpv), (at3_get3 _ _ _ _ _ Htv), (at3_get3 _ _ _ _ _ Hth).
  rewrite <- regr_entry. apply at3_get3. entrywise.
Qed.

(** The regression loss as a triple sum, for any number of anchors. *)
Lemma rpn_regr_loss_sum (num_ancs rows cols : nat) (ytrue ypred : arr3 R) :
  shape3 ytrue rows cols (8 * num_ancs) →
  shape3 ypred rows cols (4 * num_ancs) →
  rpn_regr_loss num_ancs ytrue ypred = regr_sum rows cols num_ancs ytrue ypred.
Proof.
  intros Hyt Hyp. unfold rpn_regr_loss, regr_sum.
  set (n4 := (4 * num_ancs)%nat) in *.
  assert (Ht : shape3 (last_from n4 ytrue) rows cols n4).
  { replace n4 with (8 * num_ancs - n4)%nat at 2 by lia.
    apply shape3_last_from. exact Hyt. }
  assert (Hp : shape3 (last_to n4 ytrue) rows cols n4).
  { eapply shape3_last_to; [exact Hyt | lia]. }
  rewrite (regr_loss_sum rows cols n4 _ _ _ Ht Hyp Hp).
  apply sum_upto_ext. intros i Hi. apply sum_upto_ext. intros j Hj.
  apply sum_upto_ext. intros c Hc.
  destruct (get3_is_Some ytrue _ _ _ i j c Hyt) as [p Hpv]; [lia .. |].
  destruct (get3_is_Some ytrue _ _ _ i j (n4 + c) Hyt) as [t Htv]; [lia .. |].
  rewrite (at3_get3 ytrue _ _ _ _ Hpv), (at3_get3 ytrue _ _ _ _ Htv).
  rewrite (at3_get3 (last_to n4 ytrue) i j c p)
    by (rewrite get3_last_to by lia; exact Hpv).
  rewrite (at3_get3 (last_from n4 ytrue) i j c t)
    by (rewrite get3_last_from; exact Htv).
  reflexivity.
Qed.

(** C5.  For [ytrue] of shape (rows, cols, 8*num_ancs) and [ypred] of
    shape (rows, cols, 4*num_ancs), [rpn_regr_loss num_ancs ytrue ypred]
    is the sum over all positions and the first 4*num_ancs channels of
    ptrue * smoothL1(t - t_hat), where ptrue is the channel itself, t the
    channel 4*num_ancs further on, t_hat the channel of [ypred], and
    smoothL1(d) is 0.5*d^2 when |d| < 1 and |d| - 0.5 otherwise. *)
Theorem rpn_regr_loss_spec (num_ancs rows cols : nat) (ytrue ypred : arr3 R) :
  (1 <= num_ancs)%nat →
  shape3 ytrue rows cols (8 * num_ancs) →
  shape3 ypred rows cols (4 * num_ancs) →
  rpn_regr_loss num_ancs ytrue ypred = regr_sum rows cols num_ancs ytrue ypred.
Proof. intros _. apply rpn_regr_loss_sum. Qed.

Lemma rpn_regr_loss_spec_witness :
  rpn_regr_loss 1 [[[1; 0; 1; 0; 3; 0; 0; 0]]] [[[0; 0; 0; 0]]]
  = regr_sum 1 1 1 [[[1; 0; 1; 0; 3; 0; 0; 0]]] [[[0; 0; 0; 0]]].
Proof.
  apply (rpn_regr_loss_spec 1 1 1); [lia | |]; repeat constructor.
Defined.

Lemma cls_entry (a b p : R) :
  - a * ln (1 / 10000 + p) - b * ln (1 / 10000 + 1 - p)
  = - a * ln (p + 1 / 10000) - b * ln (1 - p + 1 / 10000).
Proof.
  replace (1 / 10000 + p) with (p + 1 / 10000) by lra.
  replace (1 / 10000 + 1 - p) with (1 - p + 1 / 10000) by lra.
  reflexivity.
Qed.

Lemma log_args_positive (ppred : arr3 R) :
  Forall (λ p : R, 0 <= p <= 1) (flat3 ppred) →
  Forall (λ x : R, 0 < x) (flat3 (log_arg_pos ppred))
  ∧ Forall (λ x : R, 0 < x) (flat3 (log_arg_neg ppred)).
Proof.
  intros H. unfold log_arg_pos, log_arg_neg. rewrite !flat3_map3.
  split; apply Forall_fmap; (eapply Forall_impl; [exact H |]);
    intros p Hp; simpl; lra.
Qed.

(** The classification loss as a triple sum, for any number of anchors. *)
Lemma rpn_cls_loss_sum (num_ancs rows cols : nat) (ptrue ppred : arr3 R) :
  shape3 ptrue rows cols (2 * num_ancs) →
  shape3 ppred rows cols num_ancs →
  rpn_cls_loss num_ancs ptrue ppred = cls_sum rows cols num_ancs ptrue ppred.
Proof.
  intros Hpt Hpp.
  unfold rpn_cls_loss, cls_loss, cls_sum, log_arg_pos, log_arg_neg.
  assert (Hn : shape3 (last_from num_ancs ptrue) rows cols num_ancs).
  { replace num_ancs with (2 * num_ancs - num_ancs)%nat at 2 by lia.
    apply shape3_last_from. exact Hpt. }
  assert (Hp : shape3 (last_to num_ancs ptrue) rows cols num_ancs).
  { eapply shape3_last_to; [exact Hpt | lia]. }
  rewrite (K_sum_shape _ rows cols num_ancs)
    by (repeat first [ apply shape3_zip3 | apply shape3_map3 ]; assumption).
  apply sum_upto_ext. intros i Hi. apply sum_upto_ext. intros j Hj.
  apply sum_upto_ext. intros c Hc.
  destruct (get3_is_Some ptrue _ _ _ i j c Hpt) as [a Ha]; [lia .. |].
  destruct (get3_is_Some ptrue _ _ _ i j (num_ancs + c) Hpt) as [b Hb]; [lia .. |].
  destruct (get3_is_Some ppred _ _ _ i j c Hpp) as [p Hpv]; [lia .. |].
  rewrite (at3_get3 _ _ _ _ _ Ha), (at3_get3 _ _ _ _ _ Hb), (at3_get3 _ _ _ _ _ Hpv).
  rewrite <- cls_entry. apply at3_get3.
  assert (Hb' : get3 (last_from num_ancs ptrue) i j c = Some b)
    by (rewrite get3_last_from; exact Hb).
  assert (Ha' : get3 (last_to num_ancs ptrue) i j c = Some a)
    by (rewrite get3_last_to by lia; exact Ha).
  entrywise.
Qed.

(** C6.  For [ptrue] of shape (rows, cols, 2*num_ancs) and [ppred] of
    shape (rows, cols, num_ancs), [rpn_cls_loss num_ancs ptrue ppred] is
    the sum over all positions and channels of
    -pos*log(ppred + 1e-4) - neg*log(1 - ppred + 1e-4), pos being the
    first num_ancs channels of [ptrue] and neg the last num_ancs; when
    every entry of [ppred] lies in [0, 1], every number handed to a
    logarithm is positive. *)
Theorem rpn_cls_loss_spec (num_ancs rows cols : nat) (ptrue ppred : arr3 R) :
  (1 <= num_ancs)%nat →
  shape3 ptrue rows cols (2 * num_ancs) →
  shape3 ppred rows cols num_ancs →
  rpn_cls_loss num_ancs ptrue ppred = cls_sum rows cols num_ancs ptrue ppred
  ∧ (Forall (λ p : R, 0 <= p <= 1) (flat3 ppred) →
     Forall (λ x : R, 0 < x) (flat3 (log_arg_pos ppred))
     ∧ Forall (λ x : R, 0 < x) (flat3 (log_arg_neg ppred))).
Proof.
  intros _ Hpt Hpp. split; [apply rpn_cls_loss_sum; assumption |].
  apply log_args_positive.
Qed.

Lemma rpn_cls_loss_spec_witness :
  rpn_cls_loss 1 [[[1; 0]]] [[[1 / 2]]] = cls_sum 1 1 1 [[[1; 0]]] [[[1 / 2]]]
  ∧ (Forall (λ p : R, 0 <= p <= 1) (flat3 [[[1 / 2]]]) →
     Forall (λ x : R, 0 < x) (flat3 (log_arg_pos [[[1 / 2]]]))
     ∧ Forall (λ x : R, 0 < x) (flat3 (log_arg_neg [[[1 / 2]]]))).
Proof.
  apply (rpn_cls_loss_spec 1 1 1); [lia | |]; repeat constructor.
Defined.

End LossFacts.

(** ** Facts about [filter_boxes] *)

Section FilterFacts.

Lemma cnt_cons (b : bool) (l : list bool) :
  cnt (b :: l) = (if b then 1 else 0) + cnt l.
Proof.
  unfold cnt. rewrite filter_cons. destruct b; simpl.
  - destruct (decide (true = true)); [reflexivity | congruence].
  - destruct (decide (false = true)); [discriminate | reflexivity].
Qed.

Lemma cnt_app (l k : list bool) : cnt (l ++ k) = cnt l + cnt k.
Proof. unfold cnt. rewrite filter_app, length_app. reflexivity. Qed.

Lemma cnt_concat (ls : list (list bool)) :
  cnt (concat ls) = sum_list_with cnt ls.
Proof.
  induction ls as [| l ls IH]; [reflexivity |].
  rewrite concat_cons, cnt_app, IH. reflexivity.
Qed.

Lemma sum_list_with_concat {X} (f : X → nat) (ls : list (list X)) :
  sum_list_with f (concat ls) = sum_list_with (sum_list_with f) ls.
Proof.
  induction ls as [| l ls IH]; [reflexivity |].
  rewrite concat_cons, sum_list_with_app, IH. reflexivity.
Qed.

Lemma count_true_nested (m : arr3 bool) :
  count_true m = sum_list_with (sum_list_with cnt) m.
Proof.
  unfold count_true, flat3. rewrite cnt_concat. apply sum_list_with_concat.
Qed.

(** Changing one entry of a list changes a sum over it by the change of
    that entry. *)
Lemma sum_list_with_alter {X} (c : X → nat) (f : X → X) (l : list X) (i : nat) (x : X) :
  l !! i = Some x →
  sum_list_with c (alter f i l) + c x = sum_list_with c l + c (f x).
Proof.
  revert i. induction l as [| y l IH]; intros i Hi; [discriminate |].
  destruct i as [| i].
  - simpl in *. injection Hi as ->. lia.
  - specialize (IH i Hi).
    change (alter f (S i) (y :: l)) with (y :: alter f i l).
    set (l' := alter f i l) in *. simpl. lia.
Qed.

Lemma cnt_insert_false (cell : list bool) (a : nat) :
  cell !! a = Some true → cnt (<[a:=false]> cell) + 1 = cnt cell.
Proof.
  revert a. induction cell as [| b cell IH]; intros a Ha; [discriminate |].
  destruct a as [| a].
  - simpl in *. injection Ha as ->. rewrite !cnt_cons. lia.
  - specialize (IH a Ha).
    change (<[S a:=false]> (b :: cell)) with (b :: <[a:=false]> cell).
    rewrite !cnt_cons. lia.
Qed.

Lemma getp_Some (m : arr3 bool) (p : nat * nat * nat) (b : bool) :
  getp m p = Some b ↔
  ∃ row cell, m !! p.1.1 = Some row ∧ row !! p.1.2 = Some cell ∧ cell !! p.2 = Some b.
Proof.
  unfold getp, get3. split.
  - intros H. destruct (m !! p.1.1) as [row |]; [simpl in H | discriminate].
    destruct (row !! p.1.2) as [cell |] eqn:Hc; [simpl in H | discriminate].
    exists row, cell. split; [reflexivity | split; [exact Hc | exact H]].
  - intros (row & cell & -> & Hc & Hb). simpl. rewrite Hc. exact Hb.
Qed.

(** Clearing a true entry lowers the count by one. *)
Lemma count_true_set3 (m : arr3 bool) (p : nat * nat * nat) :
  getp m p = Some true → count_true (set3 m p false) + 1 = count_true m.
Proof.
  intros H. apply getp_Some in H. destruct H as (row & cell & Hr & Hc & Hb).
  rewrite !count_true_nested. unfold set3.
  pose proof (sum_list_with_alter (sum_list_with cnt)
                (alter (λ cell : list bool, <[p.2:=false]> cell) p.1.2)
                m p.1.1 row Hr) as H1.
  pose proof (sum_list_with_alter cnt (λ cell : list bool, <[p.2:=false]> cell)
                row p.1.2 cell Hc) as H2.
  pose proof (cnt_insert_false cell p.2 Hb) as H3.
  simpl in *. lia.
Qed.

Lemma getp_set3_ne (m : arr3 bool) (p q : nat * nat * nat) (v : bool) :
  p ≠ q → getp (set3 m p v) q = getp m q.
Proof.
  destruct p as [[i j] a], q as [[i' j'] a']. intros Hne.
  unfold getp, get3, set3. simpl.
  rewrite list_lookup_alter. destruct (decide (i = i')) as [<- |]; [| reflexivity].
  destruct (m !! i) as [row |]; [simpl | reflexivity].
  rewrite list_lookup_alter. destruct (decide (j = j')) as [<- |]; [| reflexivity].
  destruct (row !! j) as [cell |]; [simpl | reflexivity].
  apply list_lookup_insert_ne. congruence.
Qed.

Lemma getp_set3_false_eq (m : arr3 bool) (p : nat * nat * nat) :
  getp (set3 m p false) p ≠ Some true.
Proof.
  destruct p as [[i j] a]. unfold getp, get3, set3. simpl.
  rewrite list_lookup_alter_eq.
  destruct (m !! i) as [row |]; [simpl | discriminate].
  rewrite list_lookup_alter_eq.
  destruct (row !! j) as [cell |]; [simpl | discriminate].
  destruct (decide (a < length cell)) as [Ha | Ha].
  - rewrite list_lookup_insert_eq by exact Ha. discriminate.
  - rewrite list_insert_ge by lia. intros Hc.
    apply lookup_lt_Some in Hc. lia.
Qed.

(** An entry that is true after a clearing was true before it. *)
Lemma getp_set3_true (m : arr3 bool) (p q : nat * nat * nat) :
  getp (set3 m p false) q = Some true → getp m q = Some true ∧ p ≠ q.
Proof.
  intros H. destruct (decide (p = q)) as [<- | Hne].
  - exfalso. exact (getp_set3_false_eq m p H).
  - rewrite getp_set3_ne in H by exact Hne. auto.
Qed.

Lemma clear_at_true (ps : list (nat * nat * nat)) (m : arr3 bool) (q : nat * nat * nat) :
  getp (clear_at m ps) q = Some true → getp m q = Some true.
Proof.
  revert m. induction ps as [| p ps IH]; intros m H; [exact H |].
  simpl in H. apply IH in H. apply getp_set3_true in H. tauto.
Qed.

(** Clearing distinct true entries lowers the count by their number. *)
Lemma clear_at_count (ps : list (nat * nat * nat)) (m : arr3 bool) :
  NoDup ps → (∀ p, p ∈ ps → getp m p = Some true) →
  count_true (clear_at m ps) + length ps = count_true m.
Proof.
  revert m. induction ps as [| p ps IH]; intros m Hnd Htrue; simpl; [lia |].
  apply NoDup_cons in Hnd. destruct Hnd as [Hp Hnd].
  unfold clear_at in *. simpl.
  rewrite <- (count_true_set3 m p) by (apply Htrue; left).
  rewrite <- (IH (set3 m p false) Hnd); [lia |].
  intros q Hq. rewrite getp_set3_ne.
  - apply Htrue. right. exact Hq.
  - intros ->. exact (Hp Hq).
Qed.

(** *** [np.where]: the true positions, each once *)

Lemma where1_elem (cell : list bool) (a x : nat) :
  x ∈ where1 a cell → ∃ k, x = a + k ∧ cell !! k = Some true.
Proof.
  revert a. induction cell as [| b cell IH]; intros a Hx; simpl in Hx.
  - apply elem_of_nil in Hx. contradiction.
  - apply elem_of_app in Hx. destruct Hx as [Hx | Hx].
    + destruct b; [| apply elem_of_nil in Hx; contradiction].
      apply list_elem_of_singleton in Hx. exists 0. split; [lia | reflexivity].
    + apply IH in Hx. destruct Hx as (k & -> & Hk).
      exists (S k). split; [lia | exact Hk].
Qed.

Lemma where1_NoDup (cell : list bool) (a : nat) : NoDup (where1 a cell).
Proof.
  revert a. induction cell as [| b cell IH]; intros a; simpl.
  - apply NoDup_nil_2.
  - apply NoDup_app. split; [| split].
    + destruct b; [apply NoDup_singleton | apply NoDup_nil_2].
    + intros x Hx Hx'. apply where1_elem in Hx'. destruct Hx' as (k & -> & _).
      destruct b; [| apply elem_of_nil in Hx; contradiction].
      apply list_elem_of_singleton in Hx. lia.
    + apply IH.
Qed.

Lemma where1_length (cell : list bool) (a : nat) :
  length (where1 a cell) = cnt cell.
Proof.
  revert a. induction cell as [| b cell IH]; intros a; [reflexivity |].
  simpl. rewrite length_app, cnt_cons, IH. destruct b; reflexivity.
Qed.

Lemma where2_elem (row : list (list bool)) (j : nat) (q : nat * nat) :
  q ∈ where2 j row →
  ∃ k cell, q.1 = j + k ∧ row !! k = Some cell ∧ cell !! q.2 = Some true.
Proof.
  revert j. induction row as [| c row IH]; intros j Hq; simpl in Hq.
  - apply elem_of_nil in Hq. contradiction.
  - apply elem_of_app in Hq. destruct Hq as [Hq | Hq].
    + apply list_elem_of_fmap in Hq. destruct Hq as (a & -> & Ha).
      apply where1_elem in Ha. destruct Ha as (k & -> & Hk).
      exists 0, c. simpl. split; [lia | split; [reflexivity | exact Hk]].
    + apply IH in Hq. destruct Hq as (k & cell & Hj & Hc & Ht).
      exists (S k), cell. split; [lia | split; [exact Hc | exact Ht]].
Qed.

Lemma where2_NoDup (row : list (list bool)) (j : nat) : NoDup (where2 j row).
Proof.
  revert j. induction row as [| c row IH]; intros j; simpl.
  - apply NoDup_nil_2.
  - apply NoDup_app. split; [| split].
    + apply NoDup_fmap_2; [| apply where1_NoDup].
      intros a a' Heq. congruence.
    + intros q Hq Hq'. apply list_elem_of_fmap in Hq. destruct Hq as (a & -> & _).
      apply where2_elem in Hq'. destruct Hq' as (k & _ & Hj & _). simpl in Hj. lia.
    + apply IH.
Qed.

Lemma where2_length (row : list (list bool)) (j : nat) :
  length (where2 j row) = sum_list_with cnt row.
Proof.
  revert j. induction row as [| c row IH]; intros j; [reflexivity |].
  simpl. rewrite length_app, length_fmap, where1_length, IH. reflexivity.
Qed.

Lemma where3_from_elem (m : arr3 bool) (i : nat) (p : nat * nat * nat) :
  p ∈ where3_from i m →
  ∃ k, p.1.1 = i + k ∧ getp m (k, p.1.2, p.2) = Some true.
Proof.
  revert i. induction m as [| r m IH]; intros i Hp; simpl in Hp.
  - apply elem_of_nil in Hp. contradiction.
  - apply elem_of_app in Hp. destruct Hp as [Hp | Hp].
    + apply list_elem_of_fmap in Hp. destruct Hp as (q & -> & Hq).
      apply where2_elem in Hq. destruct Hq as (k & cell & Hj & Hc & Ht).
      exists 0. simpl. split; [lia |].
      apply getp_Some. exists r, cell. simpl.
      replace q.1 with k by lia. split; [reflexivity | split; [exact Hc | exact Ht]].
    + apply IH in Hp. destruct Hp as (k & Hi & Hk).
      exists (S k). split; [lia | exact Hk].
Qed.

Lemma where3_from_NoDup (m : arr3 bool) (i : nat) : NoDup (where3_from i m).
Proof.
  revert i. induction m as [| r m IH]; intros i; simpl.
  - apply NoDup_nil_2.
  - apply NoDup_app. split; [| split].
    + apply NoDup_fmap_2; [| apply where2_NoDup].
      intros [j a] [j' a'] Heq. simpl in Heq. congruence.
    + intros p Hp Hp'. apply list_elem_of_fmap in Hp. destruct Hp as (q & -> & _).
      apply where3_from_elem in Hp'. destruct Hp' as (k & Hi & _). simpl in Hi. lia.
    + apply IH.
Qed.

Lemma where3_from_length (m : arr3 bool) (i : nat) :
  length (where3_from i m) = sum_list_with (sum_list_with cnt) m.
Proof.
  revert i. induction m as [| r m IH]; intros i; [reflexivity |].
  simpl. rewrite length_app, length_fmap, where2_length, IH. reflexivity.
Qed.

Lemma where3_true (m : arr3 bool) (p : nat * nat * nat) :
  p ∈ where3 m → getp m p = Some true.
Proof.
  intros Hp. apply where3_from_elem in Hp. destruct Hp as (k & Hk & Ht).
  destruct p as [[i j] a]. simpl in *. subst i. exact Ht.
Qed.

Lemma where3_NoDup (m : arr3 bool) : NoDup (where3 m).
Proof. apply where3_from_NoDup. Qed.

Lemma where3_length (m : arr3 bool) : length (where3 m) = count_true m.
Proof. unfold where3. rewrite where3_from_length, count_true_nested. reflexivity. Qed.

(** The triples picked by a draw are distinct true positions. *)
Lemma pick_spec (m : arr3 bool) (k : nat) (c : list nat) :
  choice_outcome (count_true m) k c →
  length (pick m c) = k ∧ NoDup (pick m c)
  ∧ ∀ p, p ∈ pick m c → getp m p = Some true.
Proof.
  intros (Hlen & Hnd & Hlt). unfold pick.
  assert (Hget : ∀ x, x ∈ c → where3 m !! x = Some (where3 m !!! x)).
  { intros x Hx. apply list_lookup_lookup_total_lt.
    rewrite where3_length. rewrite Forall_forall in Hlt. apply Hlt. exact Hx. }
  split; [rewrite length_fmap; exact Hlen |]. split.
  - apply NoDup_fmap_2_strong; [| exact Hnd].
    intros x y Hx Hy Heq.
    apply (NoDup_lookup (where3 m) x y (where3 m !!! x) (where3_NoDup m)).
    + apply Hget. exact Hx.
    + rewrite Heq. apply Hget. exact Hy.
  - intros p Hp. apply list_elem_of_fmap in Hp. destruct Hp as (x & -> & Hx).
    apply where3_true. apply list_elem_of_lookup. exists x. apply Hget. exact Hx.
Qed.

(** One clearing step of [filter_boxes]: [k] of the true entries go. *)
Lemma clear_pick (m : arr3 bool) (k : nat) (c : list nat) :
  choice_outcome (count_true m) k c →
  count_true (clear_at m (pick m c)) + k = count_true m
  ∧ ∀ p, getp (clear_at m (pick m c)) p = Some true → getp m p = Some true.
Proof.
  intros Hc. destruct (pick_spec m k c Hc) as (Hlen & Hnd & Htrue). split.
  - rewrite <- Hlen. apply clear_at_count; assumption.
  - intros p. apply clear_at_true.
Qed.

End FilterFacts.

Section FilterTheorem.
Context {rng : Type}.
Variable choice : nat → nat → rng → list nat * rng.

(** Every draw is a possible outcome of
    [np.random.choice(n, k, replace=False)]. *)
Hypothesis choice_ok :
  ∀ (n k : nat) (g : rng), k ≤ n → choice_outcome n k (choice n k g).1.

Lemma random_choice_ok (n : nat) (k : Z) (g : rng) :
  0 < n → (0 ≤ k ≤ Z.of_nat n)%Z →
  ∃ c g', random_choice choice n k g = Some (c, g')
          ∧ choice_outcome n (Z.to_nat k) c.
Proof.
  intros Hn Hk. unfold random_choice.
  rewrite bool_decide_eq_true_2 by (split; [exact Hn | exact Hk]).
  pose proof (choice_ok n (Z.to_nat k) g ltac:(lia)) as Hc.
  destruct (choice n (Z.to_nat k) g) as [c g']. exists c, g'. auto.
Qed.

(** [filter_boxes] for any [num >= 0]: it returns, the counts obey the
    two caps, nothing is switched on, and [pos] is kept when it is small
    enough. *)
Lemma filter_boxes_caps (pos neg : arr3 bool) (num : Z) (g : rng) :
  (0 ≤ num)%Z →
  ∃ pos' neg' g',
    filter_boxes choice pos neg num g = Some (pos', neg', g')
    ∧ (2 * Z.of_nat (count_true pos') ≤ num)%Z
    ∧ (Z.of_nat (count_true pos') + Z.of_nat (count_true neg') ≤ num)%Z
    ∧ (∀ p, getp pos' p = Some true → getp pos p = Some true)
    ∧ (∀ p, getp neg' p = Some true → getp neg p = Some true)
    ∧ ((2 * Z.of_nat (count_true pos) ≤ num)%Z → pos' = pos).
Proof.
  intros Hnum. unfold filter_boxes.
  set (P := count_true pos). set (N := count_true neg).
  assert (Hh : (2 * (num / 2) ≤ num < 2 * (num / 2) + 2)%Z).
  { pose proof (Z.div_mod num 2 ltac:(lia)) as Hdm.
    pose proof (Z.mod_pos_bound num 2 ltac:(lia)). lia. }
  set (h := (num / 2)%Z) in *.
  (* the first stage, on [pos] *)
  assert (S1 : ∃ pos' p' g1,
    (if bool_decide (num < 2 * Z.of_nat P)%Z
     then '(c, g1) ← random_choice choice P (Z.of_nat P - h) g;
          Some (clear_at pos (pick pos c), h, g1)
     else Some (pos, Z.of_nat P, g)) = Some (pos', p', g1)
    ∧ p' = Z.of_nat (count_true pos') ∧ (2 * p' ≤ num)%Z
    ∧ (∀ p, getp pos' p = Some true → getp pos p = Some true)
    ∧ ((2 * Z.of_nat P ≤ num)%Z → pos' = pos)).
  { case_bool_decide as Hc.
    - destruct (random_choice_ok P (Z.of_nat P - h) g) as (c & g1 & Hrc & Hout);
        [lia | lia |].
      rewrite Hrc. simpl.
      destruct (clear_pick pos _ c Hout) as [Hcount Hsub].
      exists (clear_at pos (pick pos c)), h, g1.
      split; [reflexivity |]. fold P in Hcount.
      split; [lia |]. split; [lia |]. split; [exact Hsub | lia].
    - exists pos, (Z.of_nat P), g. split; [reflexivity |].
      split; [reflexivity |]. split; [lia |]. split; [auto | reflexivity]. }
  destruct S1 as (pos' & p' & g1 & -> & Hp' & Hcap & Hsub & Hkeep). simpl.
  (* the second stage, on [neg] *)
  case_bool_decide as Hc.
  - destruct (random_choice_ok N (Z.of_nat N - num + p') g1) as (c & g2 & Hrc & Hout);
      [lia | lia |].
    rewrite Hrc. simpl.
    destruct (clear_pick neg _ c Hout) as [Hcount Hsub2]. fold N in Hcount.
    exists pos', (clear_at neg (pick neg c)), g2.
    split; [reflexivity |]. split; [lia |]. split; [lia |].
    split; [exact Hsub |]. split; [exact Hsub2 | exact Hkeep].
  - exists pos', neg, g1.
    split; [reflexivity |]. split; [lia |]. split; [fold N; lia |].
    split; [exact Hsub |]. split; [auto | exact Hkeep].
Qed.

(** C4.  For masks [pos], [neg], an even [num >= 2] and every outcome of
    the two random draws, [filter_boxes] returns masks in which at most
    num/2 entries of pos are true, at most num entries of pos and neg
    together are true, every true entry was true in the mask given, and
    pos is returned unchanged unless it had more than num/2 true entries. *)
Theorem filter_boxes_spec (pos neg : arr3 bool) (num : Z) (g : rng) :
  (2 ≤ num)%Z → Z.even num = true →
  ∃ pos' neg' g',
    filter_boxes choice pos neg num g = Some (pos', neg', g')
    ∧ (Z.of_nat (count_true pos') ≤ num / 2)%Z
    ∧ (Z.of_nat (count_true pos') + Z.of_nat (count_true neg') ≤ num)%Z
    ∧ (∀ i j a, get3 pos' i j a = Some true → get3 pos i j a = Some true)
    ∧ (∀ i j a, get3 neg' i j a = Some true → get3 neg i j a = Some true)
    ∧ ((Z.of_nat (count_true pos) ≤ num / 2)%Z → pos' = pos).
Proof.
  intros Hnum Heven.
  apply Z.even_spec in Heven. destruct Heven as [h ->].
  replace (2 * h / 2)%Z with h by (rewrite Z.mul_comm, Z.div_mul; lia).
  destruct (filter_boxes_caps pos neg (2 * h) g ltac:(lia))
    as (pos' & neg' & g' & Hrun & Hcap & Htot & Hsub & Hsub2 & Hkeep).
  exists pos', neg', g'. split; [exact Hrun |].
  split; [lia |]. split; [exact Htot |].
  split; [intros i j a; apply (Hsub (i, j, a)) |].
  split; [intros i j a; apply (Hsub2 (i, j, a)) |].
  intros Hle. apply Hkeep. lia.
Qed.

End FilterTheorem.

Lemma first_k_ok (n k : nat) (g : unit) :
  k ≤ n → choice_outcome n k (first_k n k g).1.
Proof.
  intros Hk. unfold choice_outcome, first_k. simpl.
  split; [apply length_seq |]. split; [apply NoDup_seq |].
  apply Forall_forall. intros x Hx. apply elem_of_seq in Hx. lia.
Qed.

(** The deterministic generator on a small input: of the four true
    entries of pos the first three are cleared, then the first of the two
    true entries of neg. *)
Example filter_boxes_first_k :
  filter_boxes first_k
    [[[true; true; true]; [false; true; false]]]
    [[[false; false; false]; [true; false; true]]] 2 ()
  = Some ([[[false; false; false]; [false; true; false]]],
          [[[false; false; false]; [false; false; true]]], ()).
Proof. reflexivity. Qed.

Lemma filter_boxes_spec_witness :
  let pos := [[[true; true; true]; [false; true; false]]] in
  let neg := [[[false; false; false]; [true; false; true]]] in
  ∃ pos' neg' g',
    filter_boxes first_k pos neg 2 () = Some (pos', neg', g')
    ∧ (Z.of_nat (count_true pos') ≤ 2 / 2)%Z
    ∧ (Z.of_nat (count_true pos') + Z.of_nat (count_true neg') ≤ 2)%Z
    ∧ (∀ i j a, get3 pos' i j a = Some true → get3 pos i j a = Some true)
    ∧ (∀ i j a, get3 neg' i j a = Some true → get3 neg i j a = Some true)
    ∧ ((Z.of_nat (count_true pos) ≤ 2 / 2)%Z → pos' = pos).
Proof.
  apply (filter_boxes_spec first_k first_k_ok); [lia | reflexivity].
Defined.

(** ** Facts about [anchors_vs_gt] *)

Section AssignFacts.
Local Open Scope R_scope.

Lemma zip_with_fmap_same {X A B C} (f : A → B → C) (g : X → A) (h : X → B)
    (l : list X) :
  zip_with f (g <$> l) (h <$> l) = (λ x, f (g x) (h x)) <$> l.
Proof. induction l as [| x l IH]; [reflexivity |]. csimpl. rewrite IH. reflexivity. Qed.

Lemma zip3_map3_same {X A B C} (f : A → B → C) (g : X → A) (h : X → B)
    (t : arr3 X) :
  zip3 f (map3 g t) (map3 h t) = map3 (λ x, f (g x) (h x)) t.
Proof.
  unfold zip3, map3. rewrite zip_with_fmap_same.
  apply list_fmap_ext. intros _ row _. cbv beta. rewrite zip_with_fmap_same.
  apply list_fmap_ext. intros _ cell _. cbv beta. apply zip_with_fmap_same.
Qed.

Lemma map3_map3 {X Y Z} (f : X → Y) (g : Y → Z) (t : arr3 X) :
  map3 g (map3 f t) = map3 (λ x, g (f x)) t.
Proof.
  unfold map3. rewrite <- list_fmap_compose.
  apply list_fmap_ext. intros _ row _. unfold compose. rewrite <- list_fmap_compose.
  apply list_fmap_ext. intros _ cell _. unfold compose. rewrite <- list_fmap_compose.
  reflexivity.
Qed.

Lemma map3_id {X} (t : arr3 X) : map3 (λ x, x) t = t.
Proof.
  unfold map3. rewrite <- (list_fmap_id t) at 2.
  apply list_fmap_ext. intros _ row _. cbv beta. rewrite <- (list_fmap_id row) at 2.
  apply list_fmap_ext. intros _ cell _. cbv beta. apply list_fmap_id.
Qed.

Lemma zip3_self_map3 {X B C} (f : X → B → C) (h : X → B) (t : arr3 X) :
  zip3 f t (map3 h t) = map3 (λ x, f x (h x)) t.
Proof.
  rewrite <- (map3_id t) at 1. apply (zip3_map3_same f (λ x, x) h).
Qed.

Lemma foldr_stack_rows (ancs : arr3 box) (l : list box) :
  foldr (zip3 cons) (map3 (λ _ : box, []) ancs)
        ((λ gtb : box, iou_arr ancs gtb) <$> l)
  = map3 (λ b : box, iou b <$> l) ancs.
Proof.
  induction l as [| g l IH]; [reflexivity |].
  rewrite fmap_cons. simpl foldr. rewrite IH. unfold iou_arr.
  rewrite zip3_map3_same. reflexivity.
Qed.

(** Stacking the per-box IoU arrays gives every anchor its row of IoUs. *)
Lemma stack_iou_rows (ancs : arr3 box) (gtbs : list box) :
  gtbs ≠ [] →
  stack_last ((λ gtb : box, iou_arr ancs gtb) <$> gtbs)
  = Some (map3 (λ b : box, iou b <$> gtbs) ancs).
Proof.
  intros Hne. destruct gtbs as [| g0 gtbs]; [congruence |].
  rewrite <- (foldr_stack_rows ancs (g0 :: gtbs)).
  rewrite fmap_cons. unfold stack_last.
  replace (map3 (λ _ : R, @nil R) (iou_arr ancs g0))
    with (map3 (λ _ : box, @nil R) ancs); [reflexivity |].
  unfold iou_arr. rewrite map3_map3. reflexivity.
Qed.

(** The running column maximum over rows that are all of the form
    [f b <$> gs]. *)
Lemma colmax_rows {X Y} (f : X → Y → R) (gs : list Y) (bs : list X) (m0 : Y → R) :
  foldl (zip_with Rmax) (m0 <$> gs) ((λ b, f b <$> gs) <$> bs)
  = (λ g, foldl Rmax (m0 g) ((λ b, f b g) <$> bs)) <$> gs.
Proof.
  revert m0. induction bs as [| b bs IH]; intros m0; [reflexivity |].
  rewrite !fmap_cons. simpl foldl. rewrite zip_with_fmap_same.
  rewrite (IH (λ g, Rmax (m0 g) (f b g))). reflexivity.
Qed.

Lemma max_axis0_rows {X Y} (f : X → Y → R) (gs : list Y) (bs : list X) :
  bs ≠ [] →
  max_axis0 ((λ b, f b <$> gs) <$> bs)
  = Some ((λ g, vmax ((λ b, f b g) <$> bs)) <$> gs).
Proof.
  intros Hne. destruct bs as [| b0 bs]; [congruence |].
  rewrite fmap_cons. unfold max_axis0. f_equal.
  apply (colmax_rows f gs bs (f b0)).
Qed.

Lemma foldl_Rmax_spec (xs : list R) (x0 : R) :
  let m := foldl Rmax x0 xs in
  (m = x0 ∨ m ∈ xs) ∧ x0 <= m ∧ ∀ x, x ∈ xs → x <= m.
Proof.
  revert x0. induction xs as [| x xs IH]; intros x0; simpl.
  - split; [left; reflexivity |]. split; [lra |].
    intros x Hx. apply elem_of_nil in Hx. contradiction.
  - destruct (IH (Rmax x0 x)) as (Hin & Hle & Hall).
    pose proof (Rmax_l x0 x). pose proof (Rmax_r x0 x).
    split; [| split].
    + destruct Hin as [-> | Hin].
      * unfold Rmax. destruct (Rle_dec x0 x); [right; left | left; reflexivity].
      * right. right. exact Hin.
    + lra.
    + intros y Hy. apply elem_of_cons in Hy. destruct Hy as [-> | Hy]; [lra |].
      apply Hall. exact Hy.
Qed.

(** [vmax] of a non-empty vector is its greatest entry. *)
Lemma vmax_spec (v : list R) :
  v ≠ [] → vmax v ∈ v ∧ ∀ x, x ∈ v → x <= vmax v.
Proof.
  intros Hne. destruct v as [| x0 xs]; [congruence |]. simpl.
  destruct (foldl_Rmax_spec xs x0) as (Hin & Hle & Hall). split.
  - destruct Hin as [-> | Hin]; [left | right; exact Hin].
  - intros x Hx. apply elem_of_cons in Hx. destruct Hx as [-> | Hx]; [lra |].
    apply Hall. exact Hx.
Qed.

Lemma vmax_is_max {X} (l : list X) (f : X → R) :
  l ≠ [] → is_max_over l f (vmax (f <$> l)).
Proof.
  intros Hne.
  destruct (vmax_spec (f <$> l)) as [Hin Hall].
  { destruct l; [congruence | discriminate]. }
  split.
  - apply list_elem_of_fmap in Hin. destruct Hin as (x & Hx & Hxl).
    exists x. auto.
  - intros x Hx. apply Hall. apply list_elem_of_fmap. exists x. auto.
Qed.

Lemma is_max_over_unique {X} (l : list X) (f : X → R) (m m' : R) :
  is_max_over l f m → is_max_over l f m' → m = m'.
Proof.
  intros [(x & Hx & <-) Hm] [(x' & Hx' & <-) Hm'].
  apply Rle_antisym; [apply Hm'; exact Hx | apply Hm; exact Hx'].
Qed.

Lemma existsb_fmap_true {X} (f : X → bool) (l : list X) :
  existsb (λ b : bool, b) (f <$> l) = true ↔ ∃ x, x ∈ l ∧ f x = true.
Proof.
  induction l as [| y l IH]; csimpl.
  - split; [discriminate |]. intros (x & Hx & _).
    apply elem_of_nil in Hx. contradiction.
  - rewrite orb_true_iff, IH. split.
    + intros [Hy | (x & Hx & Hfx)].
      * exists y. split; [left | exact Hy].
      * exists x. split; [right; exact Hx | exact Hfx].
    + intros (x & Hx & Hfx). apply elem_of_cons in Hx.
      destruct Hx as [-> | Hx]; [left; exact Hfx | right; eauto].
Qed.

(** The soft rule on one anchor, for per-box maxima given by [best]. *)
Lemma soft_pos_rows (anc : box) (gtbs : list box) (best : box → R) :
  soft_pos (iou anc <$> gtbs) (best <$> gtbs) = true
  ↔ ∃ g, g ∈ gtbs ∧ iou anc g = best g ∧ 0 < best g.
Proof.
  unfold soft_pos. rewrite zip_with_fmap_same, <- list_fmap_compose.
  rewrite zip_with_fmap_same, existsb_fmap_true.
  split; intros (g & Hg & H); exists g; (split; [exact Hg |]).
  - unfold compose in H. apply andb_true_iff in H. destruct H as [H1 H2].
    apply bool_decide_eq_true in H1. apply bool_decide_eq_true in H2. auto.
  - unfold compose. apply andb_true_iff.
    split; apply bool_decide_eq_true; tauto.
Qed.

Lemma argmax_from_spec (xs pre : list R) (i besti : nat) (best : R) :
  length pre = i → first_max pre besti best →
  ∃ m, first_max (pre ++ xs) (argmax_from xs i besti best) m.
Proof.
  revert pre i besti best.
  induction xs as [| x xs IH]; intros pre i besti best Hlen Hfm.
  - exists best. rewrite app_nil_r. exact Hfm.
  - destruct Hfm as (Hk & Hall & Hfirst). simpl.
    replace (pre ++ x :: xs) with ((pre ++ [x]) ++ xs)
      by (rewrite <- app_assoc; reflexivity).
    case_bool_decide as Hlt.
    + apply IH; [rewrite length_app; simpl; lia |]. split; [| split].
      * rewrite lookup_app_r by lia. rewrite Hlen, Nat.sub_diag. reflexivity.
      * intros y Hy. apply elem_of_app in Hy. destruct Hy as [Hy | Hy].
        -- apply Hall in Hy. lra.
        -- apply list_elem_of_singleton in Hy. subst y. lra.
      * intros k' y Hk' Hy. rewrite lookup_app_l in Hy by lia.
        apply list_elem_of_lookup_2 in Hy. apply Hall in Hy. lra.
    + assert (Hb : (besti < length pre)%nat) by (apply lookup_lt_Some in Hk; exact Hk).
      apply IH; [rewrite length_app; simpl; lia |]. split; [| split].
      * rewrite lookup_app_l by exact Hb. exact Hk.
      * intros y Hy. apply elem_of_app in Hy. destruct Hy as [Hy | Hy].
        -- apply Hall. exact Hy.
        -- apply list_elem_of_singleton in Hy. subst y. lra.
      * intros k' y Hk' Hy. rewrite lookup_app_l in Hy by lia.
        apply (Hfirst k' y Hk' Hy).
Qed.

(** [argmax] of a non-empty vector is the first position of its maximum. *)
Lemma argmax_spec (v : list R) : v ≠ [] → ∃ m, first_max v (argmax v) m.
Proof.
  intros Hne. destruct v as [| x xs]; [congruence |]. simpl.
  apply (argmax_from_spec xs [x] 1 0 x); [reflexivity |].
  split; [reflexivity |]. split.
  - intros y Hy. apply list_elem_of_singleton in Hy. subst y. lra.
  - intros k' y Hk'. lia.
Qed.

(** The box picked for an anchor by [argmax] and [np.take]. *)
Lemma argmax_first_best (gtbs : list box) (anc : box) :
  gtbs ≠ [] →
  ∃ g, first_best gtbs anc (argmax (iou anc <$> gtbs)) g
       ∧ gtbs !!! argmax (iou anc <$> gtbs) = g.
Proof.
  intros Hne.
  destruct (argmax_spec (iou anc <$> gtbs)) as (m & Hk & Hall & Hfirst).
  { destruct gtbs; [congruence | discriminate]. }
  apply list_lookup_fmap_Some in Hk. destruct Hk as (g & -> & Hg).
  exists g. split; [| apply list_lookup_total_correct; exact Hg].
  split; [exact Hg |]. split; [split |].
  - exists g. split; [| reflexivity]. eapply list_elem_of_lookup_2. exact Hg.
  - intros g' Hg'. apply Hall. apply list_elem_of_fmap. exists g'. auto.
  - intros k' g' Hk' Hg'. apply (Hfirst k' (iou anc g') Hk').
    rewrite list_lookup_fmap, Hg'. reflexivity.
Qed.

Lemma elem_of_concat {X} (x : X) (ls : list (list X)) :
  x ∈ concat ls ↔ ∃ l, l ∈ ls ∧ x ∈ l.
Proof.
  induction ls as [| l0 ls IH]; simpl.
  - split; [intros H; apply elem_of_nil in H; contradiction |].
    intros (l & Hl & _). apply elem_of_nil in Hl. contradiction.
  - rewrite elem_of_app, IH. split.
    + intros [H | (l & Hl & Hx)]; [exists l0; split; [left | exact H] |].
      exists l. split; [right; exact Hl | exact Hx].
    + intros (l & Hl & Hx). apply elem_of_cons in Hl.
      destruct Hl as [-> | Hl]; [left; exact Hx | right; eauto].
Qed.

Lemma get3_flat3 {X} (t : arr3 X) (i j a : nat) (x : X) :
  get3 t i j a = Some x → x ∈ flat3 t.
Proof.
  unfold get3, flat3. intros H.
  destruct (t !! i) as [row |] eqn:Hrow; [simpl in H | discriminate].
  destruct (row !! j) as [cell |] eqn:Hcell; [simpl in H | discriminate].
  apply elem_of_concat. exists cell. split.
  - apply elem_of_concat. exists row.
    split; eapply list_elem_of_lookup_2; eassumption.
  - eapply list_elem_of_lookup_2. exact H.
Qed.

(** [anchors_vs_gt] anchor by anchor. *)
Lemma anchors_vs_gt_entrywise (ancs : arr3 box) (gtbs : list box) (lo hi : R) :
  gtbs ≠ [] → flat3 ancs ≠ [] →
  anchors_vs_gt ancs gtbs lo hi
  = Some
      (map3 (λ b : box, bool_decide (hi <= vmax (iou b <$> gtbs))
                        || soft_pos (iou b <$> gtbs) (best_of ancs gtbs)) ancs,
       map3 (λ b : box, bool_decide (vmax (iou b <$> gtbs) <= lo)) ancs,
       map3 (λ b : box, coords2param b (gtbs !!! argmax (iou b <$> gtbs))) ancs).
Proof.
  intros Hg Ha. unfold anchors_vs_gt.
  rewrite (stack_iou_rows ancs gtbs Hg). simpl.
  rewrite flat3_map3.
  rewrite (max_axis0_rows iou gtbs (flat3 ancs) Ha). simpl.
  fold (best_of ancs gtbs).
  rewrite !map3_map3, zip3_map3_same, zip3_self_map3. reflexivity.
Qed.

Lemma positive_rule_iff (ancs : arr3 box) (gtbs : list box) (hi : R) (anc : box) :
  gtbs ≠ [] → flat3 ancs ≠ [] →
  bool_decide (hi <= vmax (iou anc <$> gtbs))
  || soft_pos (iou anc <$> gtbs) (best_of ancs gtbs) = true
  ↔ positive_rule ancs gtbs hi anc.
Proof.
  intros Hg Ha. unfold positive_rule, best_of.
  rewrite orb_true_iff, bool_decide_eq_true.
  rewrite (soft_pos_rows anc gtbs (λ g, vmax ((λ b : box, iou b g) <$> flat3 ancs))).
  pose proof (vmax_is_max gtbs (iou anc) Hg) as Hrow.
  split; intros [H | H].
  - left. exists (vmax (iou anc <$> gtbs)). auto.
  - right. destruct H as (g & Hin & Heq & Hpos).
    exists g, (vmax ((λ b : box, iou b g) <$> flat3 ancs)).
    split; [exact Hin |]. split; [| auto].
    apply (vmax_is_max (flat3 ancs) (λ b, iou b g) Ha).
  - left. destruct H as (m & Hm & Hhi).
    rewrite (is_max_over_unique _ _ _ _ Hrow Hm). exact Hhi.
  - right. destruct H as (g & m & Hin & Hm & Heq & Hpos). exists g.
    pose proof (vmax_is_max (flat3 ancs) (λ b, iou b g) Ha) as Hcol.
    rewrite (is_max_over_unique _ _ _ _ Hcol Hm). auto.
Qed.

Lemma negative_rule_iff (gtbs : list box) (lo : R) (anc : box) :
  gtbs ≠ [] →
  bool_decide (vmax (iou anc <$> gtbs) <= lo) = true ↔ negative_rule gtbs lo anc.
Proof.
  intros Hg. unfold negative_rule. rewrite bool_decide_eq_true.
  pose proof (vmax_is_max gtbs (iou anc) Hg) as Hrow. split.
  - intros H. exists (vmax (iou anc <$> gtbs)). auto.
  - intros (m & Hm & Hlo).
    rewrite (is_max_over_unique _ _ _ _ Hrow Hm). exact Hlo.
Qed.

(** One anchor that coincides with the only ground-truth box: IoU 1, so
    the anchor is positive and not negative, and its offsets are 0. *)
Example anchors_vs_gt_same_box :
  anchors_vs_gt [[[[0; 0; 2; 2]]]] [[0; 0; 2; 2]] 0.3 0.7
  = Some ([[[true]]], [[[false]]],
          [[[[(0 - 0) / (2 - 0); (0 - 0) / (2 - 0);
              ln ((2 - 0) / (2 - 0)); ln ((2 - 0) / (2 - 0))]]]]).
Proof.
  rewrite anchors_vs_gt_entrywise by discriminate.
  assert (Hiou : iou [0; 0; 2; 2] [0; 0; 2; 2] = 1).
  { unfold iou. cbv zeta. rewrite intersect_eq, union_eq. minmax. }
  unfold map3, best_of, soft_pos, flat3. csimpl. rewrite Hiou.
  rewrite (bool_decide_eq_true_2 (0.7 <= 1)) by lra.
  rewrite (bool_decide_eq_false_2 (1 <= 0.3)) by lra.
  reflexivity.
Qed.

(** C2.  For a non-empty list of ground-truth boxes and every anchor
    [anc] at a position (i, j, a) of the anchor array, [anchors_vs_gt]
    returns; it marks the anchor positive exactly when its greatest IoU
    over the ground-truth boxes is >= hi, or for some ground-truth box g
    its IoU with g is the greatest IoU any anchor has with g and that is
    > 0; it marks the anchor negative exactly when its greatest IoU is
    <= lo; and the third array holds at (i, j, a) [coords2param] of the
    anchor against the ground-truth box of greatest IoU with it (the
    first such box in the list). *)
Theorem anchors_vs_gt_spec (ancs : arr3 box) (gtbs : list box) (lo hi : R)
    (i j a : nat) (anc : box) :
  gtbs ≠ [] → get3 ancs i j a = Some anc →
  ∃ box_pos box_neg params bp bn k g,
    anchors_vs_gt ancs gtbs lo hi = Some (box_pos, box_neg, params)
    ∧ get3 box_pos i j a = Some bp
    ∧ (bp = true ↔ positive_rule ancs gtbs hi anc)
    ∧ get3 box_neg i j a = Some bn
    ∧ (bn = true ↔ negative_rule gtbs lo anc)
    ∧ first_best gtbs anc k g
    ∧ get3 params i j a = Some (coords2param anc g).
Proof.
  intros Hg Hanc.
  assert (Ha : flat3 ancs ≠ []).
  { intros Hnil. apply get3_flat3 in Hanc. rewrite Hnil in Hanc.
    apply elem_of_nil in Hanc. exact Hanc. }
  destruct (argmax_first_best gtbs anc Hg) as (g & Hfb & Htake).
  rewrite (anchors_vs_gt_entrywise ancs gtbs lo hi Hg Ha).
  eexists _, _, _, _, _, (argmax (iou anc <$> gtbs)), g.
  split; [reflexivity |].
  split; [rewrite get3_map3, Hanc; reflexivity |].
  split; [apply positive_rule_iff; assumption |].
  split; [rewrite get3_map3, Hanc; reflexivity |].
  split; [apply negative_rule_iff; assumption |].
  split; [exact Hfb |].
  rewrite get3_map3, Hanc. simpl. rewrite Htake. reflexivity.
Qed.

Lemma anchors_vs_gt_spec_witness :
  let ancs := [[[[0; 0; 2; 2]; [0; 0; 4; 4]]]] in
  let gtbs := [[0; 0; 2; 2]; [1; 1; 3; 3]] in
  let anc := [0; 0; 4; 4] in
  ∃ box_pos box_neg params bp bn k g,
    anchors_vs_gt ancs gtbs 0.3 0.7 = Some (box_pos, box_neg, params)
    ∧ get3 box_pos 0 0 1 = Some bp
    ∧ (bp = true ↔ positive_rule ancs gtbs 0.7 anc)
    ∧ get3 box_neg 0 0 1 = Some bn
    ∧ (bn = true ↔ negative_rule gtbs 0.3 anc)
    ∧ first_best gtbs anc k g
    ∧ get3 params 0 0 1 = Some (coords2param anc g).
Proof.
  apply (anchors_vs_gt_spec [[[[0; 0; 2; 2]; [0; 0; 4; 4]]]]
           [[0; 0; 2; 2]; [1; 1; 3; 3]] 0.3 0.7 0 0 1 [0; 0; 4; 4]);
    [discriminate | reflexivity].
Defined.

End AssignFacts.

(** ** Facts about the data generator *)

Section DataFacts.
Local Open Scope R_scope.

Lemma shape3_set3 (m : arr3 bool) (p : nat * nat * nat) (v : bool) (r c k : nat) :
  shape3 m r c k → shape3 (set3 m p v) r c k.
Proof.
  intros [Hr Hrows]. unfold set3. split; [rewrite length_alter; exact Hr |].
  apply Forall_alter; [exact Hrows |]. intros row _ [Hc Hcells].
  split; [rewrite length_alter; exact Hc |].
  apply Forall_alter; [exact Hcells |]. intros cell _ Hk. simpl in *.
  rewrite length_insert. exact Hk.
Qed.

Lemma shape3_clear_at (ps : list (nat * nat * nat)) (m : arr3 bool) (r c k : nat) :
  shape3 m r c k → shape3 (clear_at m ps) r c k.
Proof.
  revert m. induction ps as [| p ps IH]; intros m Hm; [exact Hm |].
  simpl. apply IH. apply shape3_set3. exact Hm.
Qed.

Ltac filter_boxes_case H :=
  match type of H with
  | context [bool_decide ?P] => destruct (bool_decide P)
  | context [random_choice ?c ?n ?k ?g] =>
      destruct (random_choice c n k g) as [[? ?] |]; [| discriminate H]
  end; simpl in H.

(** The masks returned by [filter_boxes] are the masks given, with some
    entries cleared. *)
Lemma filter_boxes_cleared {rng} (choice : nat → nat → rng → list nat * rng)
    (pos neg : arr3 bool) (num : Z) (g : rng) (pos' neg' : arr3 bool) (g' : rng) :
  filter_boxes choice pos neg num g = Some (pos', neg', g') →
  (∃ ps, pos' = clear_at pos ps) ∧ (∃ ns, neg' = clear_at neg ns).
Proof.
  unfold filter_boxes. intros H.
  repeat filter_boxes_case H;
    injection H as <- <- <-;
    (split; [first [by exists [] | by eexists] | first [by exists [] | by eexists]]).
Qed.

Lemma filter_boxes_shape {rng} (choice : nat → nat → rng → list nat * rng)
    (pos neg : arr3 bool) (num : Z) (g : rng) (pos' neg' : arr3 bool) (g' : rng)
    (r c k : nat) :
  filter_boxes choice pos neg num g = Some (pos', neg', g') →
  shape3 pos r c k → shape3 neg r c k →
  shape3 pos' r c k ∧ shape3 neg' r c k.
Proof.
  intros H Hp Hn. apply filter_boxes_cleared in H.
  destruct H as [[ps ->] [ns ->]]. split; apply shape3_clear_at; assumption.
Qed.

(** *** Concatenation and slicing on the last axis *)

Lemma take_zip_app {A} (ca cb : list (list A)) (n : nat) :
  Forall (λ x : list A, length x = n) ca → length ca = length cb →
  take n <$> zip_with app ca cb = ca.
Proof.
  revert cb. induction ca as [| x ca IH]; intros cb Hn Hlen; [reflexivity |].
  destruct cb as [| y cb]; [discriminate |].
  apply Forall_cons in Hn. destruct Hn as [Hx Hn]. csimpl.
  rewrite (take_app_length' x y n) by (symmetry; exact Hx).
  rewrite IH; [reflexivity | exact Hn | simpl in Hlen; lia].
Qed.

Lemma drop_zip_app {A} (ca cb : list (list A)) (n : nat) :
  Forall (λ x : list A, length x = n) ca → length ca = length cb →
  drop n <$> zip_with app ca cb = cb.
Proof.
  revert cb. induction ca as [| x ca IH]; intros cb Hn Hlen.
  - destruct cb; [reflexivity | discriminate].
  - destruct cb as [| y cb]; [discriminate |].
    apply Forall_cons in Hn. destruct Hn as [Hx Hn]. csimpl.
    rewrite <- Hx, drop_app_length, Hx.
    rewrite IH; [reflexivity | exact Hn | simpl in Hlen; lia].
Qed.

Lemma slices_concat_last {A} (a b : arr3 A) (r c n m : nat) :
  shape3 a r c n → shape3 b r c m →
  last_to n (concat_last a b) = a ∧ last_from n (concat_last a b) = b.
Proof.
  unfold last_to, last_from, concat_last. intros [Hr Ha] [Hr' Hb].
  assert (Hlen : length a = length b) by lia. clear Hr Hr'.
  revert b Hb Hlen. induction Ha as [| ra a [Hc Hra] Ha IH]; intros b Hb Hlen.
  - destruct b; [split; reflexivity | discriminate].
  - destruct b as [| rb b]; [discriminate |].
    apply Forall_cons in Hb. destruct Hb as [[Hc' _] Hb].
    destruct (IH b Hb) as [IH1 IH2]; [simpl in Hlen; lia |]. csimpl.
    rewrite IH1, IH2.
    rewrite (take_zip_app ra rb n Hra) by lia.
    rewrite (drop_zip_app ra rb n Hra) by lia. split; reflexivity.
Qed.

Lemma shape3_concat_last {A} (a b : arr3 A) (r c n m : nat) :
  shape3 a r c n → shape3 b r c m → shape3 (concat_last a b) r c (n + m).
Proof.
  rewrite !shape3_lookup. intros [Ha HA] [Hb HB]. unfold concat_last. split.
  - rewrite length_zip_with. lia.
  - intros i row Hrow. apply lookup_zip_with_Some in Hrow.
    destruct Hrow as (ra & rb & -> & Hra & Hrb).
    destruct (HA i ra Hra) as [Hca HcA]. destruct (HB i rb Hrb) as [Hcb HcB].
    split; [rewrite length_zip_with; lia |].
    intros j cell Hcell. apply lookup_zip_with_Some in Hcell.
    destruct Hcell as (ca & cb & -> & Hca' & Hcb').
    rewrite length_app, (HcA j ca Hca'), (HcB j cb Hcb'). reflexivity.
Qed.

(** *** [repeat] on the last axis *)

Lemma length_bind_replicate {A} (l : list A) :
  length (l ≫= replicate 4) = (4 * length l)%nat.
Proof.
  induction l as [| x l IH]; [reflexivity |].
  rewrite bind_cons, length_app, length_replicate, IH. simpl. lia.
Qed.

Lemma lookup_bind_replicate {A} (l : list A) (c : nat) :
  (l ≫= replicate 4) !! c = l !! (c / 4)%nat.
Proof.
  revert c. induction l as [| x l IH]; intros c; [reflexivity |].
  rewrite bind_cons. destruct (decide (c < 4)%nat) as [Hc | Hc].
  - rewrite lookup_app_l by (rewrite length_replicate; exact Hc).
    rewrite Nat.div_small by exact Hc.
    rewrite lookup_replicate_2 by exact Hc. reflexivity.
  - rewrite lookup_app_r by (rewrite length_replicate; lia).
    rewrite length_replicate, IH.
    replace c with ((c - 4) + 1 * 4)%nat at 2 by lia.
    rewrite Nat.div_add by lia.
    replace ((c - 4) / 4 + 1)%nat with (S ((c - 4) / 4)) by lia. reflexivity.
Qed.

Lemma shape3_repeat_last {A} (t : arr3 A) (r c n : nat) :
  shape3 t r c n → shape3 (repeat_last 4 t) r c (4 * n).
Proof.
  intros [Hr Hrows]. unfold repeat_last.
  split; [rewrite length_fmap; exact Hr |].
  apply Forall_fmap. eapply Forall_impl; [exact Hrows |].
  intros row [Hc Hcells]. unfold compose. cbv beta. split; [rewrite length_fmap; exact Hc |].
  apply Forall_fmap. eapply Forall_impl; [exact Hcells |].
  intros cell Hk. unfold compose. cbv beta in *. rewrite length_bind_replicate, Hk. reflexivity.
Qed.

Lemma get3_repeat_last {A} (t : arr3 A) (i j x : nat) :
  get3 (repeat_last 4 t) i j x = get3 t i j (x / 4).
Proof.
  unfold get3, repeat_last. rewrite list_lookup_fmap.
  destruct (t !! i) as [row |]; [simpl | reflexivity].
  rewrite list_lookup_fmap.
  destruct (row !! j) as [cell |]; [simpl | reflexivity].
  apply lookup_bind_replicate.
Qed.

(** *** Merging the two last axes of the encoded boxes *)

Lemma length_concat_fmap4 {X} (f : X → list R) (cell : list X) :
  (∀ x, length (f x) = 4%nat) →
  length (concat (f <$> cell)) = (4 * length cell)%nat.
Proof.
  intros Hf. induction cell as [| x cell IH]; [reflexivity |].
  rewrite fmap_cons, concat_cons, length_app, Hf, IH. simpl. lia.
Qed.

Lemma shape3_merge_map3 {X} (f : X → list R) (t : arr3 X) (r c n : nat) :
  (∀ x, length (f x) = 4%nat) →
  shape3 t r c n → shape3 (merge_last (map3 f t)) r c (4 * n).
Proof.
  intros Hf [Hr Hrows]. unfold merge_last, map3.
  split; [rewrite !length_fmap; exact Hr |].
  rewrite <- list_fmap_compose. apply Forall_fmap.
  eapply Forall_impl; [exact Hrows |].
  intros row [Hc Hcells]. unfold compose.
  split; [rewrite !length_fmap; exact Hc |].
  rewrite <- list_fmap_compose. apply Forall_fmap.
  eapply Forall_impl; [exact Hcells |].
  intros cell Hk. unfold compose. cbv beta in *.
  rewrite (length_concat_fmap4 f cell Hf), Hk. reflexivity.
Qed.

(** *** One item of the generator *)

Lemma map3_ext {X Y} (f g : X → Y) (t : arr3 X) :
  (∀ x, f x = g x) → map3 f t = map3 g t.
Proof.
  intros H. unfold map3.
  apply list_fmap_ext. intros _ row _.
  apply list_fmap_ext. intros _ cell _.
  apply list_fmap_ext. intros _ x _. apply H.
Qed.

Lemma last_to_map3 {X Y} (f : X → Y) (n : nat) (t : arr3 X) :
  last_to n (map3 f t) = map3 f (last_to n t).
Proof.
  unfold last_to, map3. rewrite <- !list_fmap_compose.
  apply list_fmap_ext. intros _ row _. unfold compose.
  rewrite <- !list_fmap_compose.
  apply list_fmap_ext. intros _ cell _. unfold compose.
  symmetry. apply fmap_take.
Qed.

Lemma last_from_map3 {X Y} (f : X → Y) (n : nat) (t : arr3 X) :
  last_from n (map3 f t) = map3 f (last_from n t).
Proof.
  unfold last_from, map3. rewrite <- !list_fmap_compose.
  apply list_fmap_ext. intros _ row _. unfold compose.
  rewrite <- !list_fmap_compose.
  apply list_fmap_ext. intros _ cell _. unfold compose.
  symmetry. apply fmap_drop.
Qed.

Lemma at3_default (t : arr3 R) (i j x : nat) :
  at3 t i j x = default 0 (get3 t i j x).
Proof.
  destruct (get3 t i j x) as [v |] eqn:H; [apply at3_get3; exact H |].
  unfold at3, get3 in *. rewrite !list_lookup_total_alt.
  destruct (t !! i) as [row |]; [simpl in * | reflexivity].
  destruct (row !! j) as [cell |]; [simpl in * | reflexivity].
  rewrite H. reflexivity.
Qed.

(** [anchors_vs_gt] raises exactly when there is no ground-truth box or
    no anchor. *)
Lemma anchors_vs_gt_Some (ancs : arr3 box) (gtbs : list box) (lo hi : R) :
  is_Some (anchors_vs_gt ancs gtbs lo hi) ↔ gtbs ≠ [] ∧ flat3 ancs ≠ [].
Proof.
  split.
  - intros [r Hr]. assert (Hg : gtbs ≠ []).
    { intros ->. discriminate Hr. }
    split; [exact Hg |]. intros Hnil. unfold anchors_vs_gt in Hr.
    rewrite (stack_iou_rows ancs gtbs Hg) in Hr. simpl in Hr.
    rewrite flat3_map3, Hnil in Hr. discriminate Hr.
  - intros [Hg Ha]. rewrite (anchors_vs_gt_entrywise ancs gtbs lo hi Hg Ha). eauto.
Qed.

Lemma anchors_vs_gt_shape (ancs : arr3 box) (gtbs : list box) (lo hi : R)
    (pos neg : arr3 bool) (params : arr3 (list R)) (r c n : nat) :
  anchors_vs_gt ancs gtbs lo hi = Some (pos, neg, params) →
  shape3 ancs r c n →
  shape3 pos r c n ∧ shape3 neg r c n ∧ shape3 (merge_last params) r c (4 * n).
Proof.
  intros H Hs.
  destruct (proj1 (anchors_vs_gt_Some ancs gtbs lo hi)) as [Hg Ha]; [eauto |].
  rewrite (anchors_vs_gt_entrywise ancs gtbs lo hi Hg Ha) in H.
  injection H as <- <- <-.
  split; [apply shape3_map3; exact Hs |]. split; [apply shape3_map3; exact Hs |].
  apply shape3_merge_map3; [reflexivity | exact Hs].
Qed.

Section WithWorld.
Context {rng image : Type}.
Variable choice : nat → nat → rng → list nat * rng.
Variable imread : Z → option image.
Variable csv : list (list Z).

(** What an item yielded for image [i] is made of. *)
Lemma datagen_body_layout (ancs : arr3 box) (rows cols anc_num : nat)
    (i : Z) (g : rng) (s : sample image) (g' : rng) :
  shape3 ancs rows cols anc_num →
  datagen_body choice imread csv ancs i g = Some (s, g') →
  ∃ pos0 neg0 params pos neg,
    anchors_vs_gt ancs (gt_boxes csv i) 0.3 0.7 = Some (pos0, neg0, params)
    ∧ filter_boxes choice pos0 neg0 256 g = Some (pos, neg, g')
    ∧ shape3 pos rows cols anc_num
    ∧ shape3 (merge_last params) rows cols (4 * anc_num)
    ∧ laid_out anc_num pos neg params s.
Proof.
  intros Hs H. unfold datagen_body in H.
  destruct (anchors_vs_gt ancs (gt_boxes csv i) 0.3 0.7)
    as [[[pos0 neg0] params] |] eqn:Havg; [simpl in H | discriminate].
  destruct (filter_boxes choice pos0 neg0 256 g)
    as [[[pos neg] g1] |] eqn:Hfb; [simpl in H | discriminate].
  destruct (imread i) as [img |]; [simpl in H | discriminate].
  injection H as <- <-.
  destruct (anchors_vs_gt_shape _ _ _ _ _ _ _ _ _ _ Havg Hs) as (Hp0 & Hn0 & Hpar).
  destruct (filter_boxes_shape _ _ _ _ _ _ _ _ _ _ _ Hfb Hp0 Hn0) as [Hp Hn].
  exists pos0, neg0, params, pos, neg.
  split; [reflexivity |]. split; [exact Hfb |].
  split; [exact Hp |]. split; [exact Hpar |].
  eexists _, _. split; [reflexivity |]. split; [reflexivity |].
  destruct (slices_concat_last pos neg _ _ _ _ Hp Hn) as [E1 E2].
  pose proof (shape3_map3 b2r _ _ _ _ (shape3_repeat_last pos _ _ _ Hp)) as Hrep.
  destruct (slices_concat_last _ _ _ _ _ _ Hrep Hpar) as [E3 E4].
  rewrite last_to_map3, last_from_map3, E1, E2. auto.
Qed.

(** A property of the items yielded by the body holds for every item of
    the run. *)
Lemma datagen_loop_Forall (P : Z → sample image → Prop) (ancs : arr3 box)
    (idx : list Z) (g : rng) :
  (∀ i g0 s g1, datagen_body choice imread csv ancs i g0 = Some (s, g1) → P i s) →
  Forall (λ e, ∀ s, e.2 = Some s → P e.1 s) (datagen_loop choice imread csv ancs idx g).
Proof.
  intros HP. revert g. induction idx as [| i idx IH]; intros g; simpl.
  - apply Forall_nil_2.
  - destruct (datagen_body choice imread csv ancs i g) as [[s g1] |] eqn:Hb.
    + apply Forall_cons. split; [| apply IH].
      intros s' Hs'. simpl in Hs'. injection Hs' as <-. simpl. eapply HP. exact Hb.
    + apply Forall_cons. split; [| apply Forall_nil_2]. intros s' Hs'. discriminate.
Qed.

Lemma datagen_loop_prefix (ancs : arr3 box) (idx : list Z) (g : rng) :
  (fst <$> datagen_loop choice imread csv ancs idx g) `prefix_of` idx.
Proof.
  revert g. induction idx as [| i idx IH]; intros g; simpl.
  - apply prefix_nil.
  - destruct (datagen_body choice imread csv ancs i g) as [[s g1] |]; csimpl.
    + apply prefix_cons. apply IH.
    + apply prefix_cons. apply prefix_nil.
Qed.

Lemma datagen_loop_all (ancs : arr3 box) (idx : list Z) (g : rng) :
  Forall (λ e, is_Some e.2) (datagen_loop choice imread csv ancs idx g) →
  fst <$> datagen_loop choice imread csv ancs idx g = idx.
Proof.
  revert g. induction idx as [| i idx IH]; intros g; simpl; [reflexivity |].
  destruct (datagen_body choice imread csv ancs i g) as [[s g1] |]; csimpl.
  - intros H. apply Forall_cons in H. destruct H as [_ H].
    rewrite (IH g1 H). reflexivity.
  - intros H. apply Forall_cons in H. destruct H as [[x Hx] _]. discriminate.
Qed.

End WithWorld.


End DataFacts.

(** ** The generator and the losses together *)

Section GeneratorTheorems.
Local Open Scope R_scope.
Context {rng image : Type}.
Variable choice : nat → nat → rng → list nat * rng.
Variable imread : Z → option image.
Variable csv : list (list Z).

(** The weight the regression loss reads in channel c is 1 when anchor
    c / 4 is marked and 0 otherwise. *)
Lemma at3_repeated_mask (pos : arr3 bool) (i j c : nat) :
  at3 (map3 b2r (repeat_last 4 pos)) i j c
  = b2r (default false (get3 pos i j (c / 4))).
Proof.
  rewrite at3_default, get3_map3, get3_repeat_last.
  destruct (get3 pos i j (c / 4)); reflexivity.
Qed.

Lemma laid_out_losses (rows cols anc_num : nat) (pos neg : arr3 bool)
    (params : arr3 (list R)) (s : sample image) :
  shape3 pos rows cols anc_num →
  shape3 (merge_last params) rows cols (4 * anc_num) →
  laid_out anc_num pos neg params s →
  losses_read anc_num pos neg params s
  ∧ ∀ yr ypred, y_regr s = [yr] → shape3 ypred rows cols (4 * anc_num) →
      rpn_regr_loss anc_num yr ypred
      = marked_regr_sum rows cols anc_num pos (merge_last params) ypred.
Proof.
  intros Hp Hpar (yc & yr & Hyc & Hyr & E1 & E2 & E3 & E4).
  assert (Hregr : ∀ ypred, rpn_regr_loss anc_num yr ypred
                  = regr_loss (merge_last params) ypred (map3 b2r (repeat_last 4 pos))).
  { intros ypred. unfold rpn_regr_loss. rewrite E3, E4. reflexivity. }
  split.
  - intros yc' yr' Hyc' Hyr'.
    rewrite Hyc in Hyc'. injection Hyc' as <-.
    rewrite Hyr in Hyr'. injection Hyr' as <-.
    split; [| exact Hregr].
    intros ppred. unfold rpn_cls_loss.
    rewrite last_to_map3, last_from_map3, E1, E2, !map3_map3.
    rewrite !(map3_ext (λ x : bool, IZR (b2z x)) b2r) by (intros []; reflexivity).
    reflexivity.
  - intros yr' ypred Hyr' Hyp.
    rewrite Hyr in Hyr'. injection Hyr' as <-.
    rewrite Hregr.
    rewrite (regr_loss_sum rows cols (4 * anc_num) _ _ _ Hpar Hyp
               (shape3_map3 b2r _ _ _ _ (shape3_repeat_last pos _ _ _ Hp))).
    unfold marked_regr_sum.
    apply sum_upto_ext. intros i Hi. apply sum_upto_ext. intros j Hj.
    apply sum_upto_ext. intros c Hc. rewrite at3_repeated_mask. reflexivity.
Qed.

(** C7.  Every item yielded by [datagen] for anchors of shape
    (rows, cols, anc_num) carries the positive mask in channels
    [0, anc_num) and the negative mask in channels [anc_num, 2*anc_num)
    of y_cls, the slices [rpn_cls_loss anc_num] reads as postrue and
    negtrue; and the positive mask, each entry four times, in channels
    [0, 4*anc_num) and the encoded boxes in channels
    [4*anc_num, 8*anc_num) of y_regr, the slices [rpn_regr_loss anc_num]
    reads as ptrue and as regression target.  Hence the regression loss
    is the robust loss summed over the channels of the anchors marked
    positive. *)
Theorem datagen_layout (start stop : Z) (ancs : option (arr3 box)) (shuffle : bool)
    (g : rng) (rows cols anc_num : nat) :
  shape3 (default_ancs ancs) rows cols anc_num →
  Forall
    (λ e, ∀ s, e.2 = Some s →
       ∃ pos0 neg0 params pos neg g0 g1,
         anchors_vs_gt (default_ancs ancs) (gt_boxes csv e.1) 0.3 0.7
           = Some (pos0, neg0, params)
         ∧ filter_boxes choice pos0 neg0 256 g0 = Some (pos, neg, g1)
         ∧ laid_out anc_num pos neg params s
         ∧ losses_read anc_num pos neg params s
         ∧ ∀ yr ypred, y_regr s = [yr] → shape3 ypred rows cols (4 * anc_num) →
             rpn_regr_loss anc_num yr ypred
             = marked_regr_sum rows cols anc_num pos (merge_last params) ypred)
    (datagen choice imread csv start stop ancs shuffle g).
Proof.
  intros Hs. unfold datagen.
  apply (datagen_loop_Forall choice imread csv
           (λ i s, ∃ pos0 neg0 params pos neg g0 g1,
              anchors_vs_gt (default_ancs ancs) (gt_boxes csv i) 0.3 0.7
                = Some (pos0, neg0, params)
              ∧ filter_boxes choice pos0 neg0 256 g0 = Some (pos, neg, g1)
              ∧ laid_out anc_num pos neg params s
              ∧ losses_read anc_num pos neg params s
              ∧ ∀ yr ypred, y_regr s = [yr] → shape3 ypred rows cols (4 * anc_num) →
                  rpn_regr_loss anc_num yr ypred
                  = marked_regr_sum rows cols anc_num pos (merge_last params) ypred)).
  intros i g0 s g1 Hb.
  destruct (datagen_body_layout choice imread csv _ _ _ _ i g0 s g1 Hs Hb)
    as (pos0 & neg0 & params & pos & neg & Havg & Hfb & Hp & Hpar & Hlay).
  destruct (laid_out_losses rows cols anc_num pos neg params s Hp Hpar Hlay)
    as [Hread Hsum].
  exists pos0, neg0, params, pos, neg, g0, g1. auto.
Qed.

(** The body returns when the image has a ground-truth box, there is an
    anchor and the picture can be read. *)
Lemma datagen_body_runs (ancs : arr3 box) (i : Z) (g : rng) :
  (∀ (n k : nat) (g : rng), k ≤ n → choice_outcome n k (choice n k g).1) →
  gt_boxes csv i ≠ [] → flat3 ancs ≠ [] → is_Some (imread i) →
  is_Some (datagen_body choice imread csv ancs i g).
Proof.
  intros Hch Hg Ha [img Himg]. unfold datagen_body.
  destruct (proj2 (anchors_vs_gt_Some ancs (gt_boxes csv i) 0.3 0.7))
    as [[[pos0 neg0] params] ->]; [auto |]. simpl.
  destruct (filter_boxes_caps choice Hch pos0 neg0 256 g ltac:(lia))
    as (pos & neg & g1 & -> & _). simpl.
  rewrite Himg. simpl. eauto.
Qed.

(** When that holds for every image of the range, the run yields an item
    at each of start, ..., stop - 1. *)
Lemma datagen_complete (start stop : Z) (ancs : option (arr3 box)) (shuffle : bool)
    (g : rng) :
  (∀ (n k : nat) (g : rng), k ≤ n → choice_outcome n k (choice n k g).1) →
  flat3 (default_ancs ancs) ≠ [] →
  (∀ i, i ∈ arange start stop → gt_boxes csv i ≠ [] ∧ is_Some (imread i)) →
  Forall (λ e, is_Some e.2) (datagen choice imread csv start stop ancs shuffle g).
Proof.
  intros Hch Ha. unfold datagen. generalize (arange start stop). intros idx.
  revert g. induction idx as [| i idx IH]; intros g Hall; simpl.
  - apply Forall_nil_2.
  - destruct (Hall i) as [Hg Him]; [left |].
    destruct (datagen_body_runs (default_ancs ancs) i g Hch Hg Ha Him) as [[s g1] ->].
    apply Forall_cons. split; [simpl; eauto |].
    apply IH. intros i' Hi'. apply Hall. right. exact Hi'.
Qed.


End GeneratorTheorems.

Lemma datagen_layout_witness :
  Forall
    (λ e, ∀ s, e.2 = Some s →
       ∃ pos0 neg0 params pos neg g0 g1,
         anchors_vs_gt (default_ancs (Some [[[[0%R; 0%R; 2%R; 2%R]]]])) (gt_boxes [[0; 0; 0; 2; 2; 1]]%Z e.1)
             0.3%R 0.7%R
           = Some (pos0, neg0, params)
         ∧ filter_boxes first_k pos0 neg0 256 g0 = Some (pos, neg, g1)
         ∧ laid_out 1 pos neg params s
         ∧ losses_read 1 pos neg params s
         ∧ ∀ yr ypred, y_regr s = [yr] → shape3 ypred 1 1 (4 * 1) →
             rpn_regr_loss 1 yr ypred
             = marked_regr_sum 1 1 1 pos (merge_last params) ypred)
    (datagen first_k (λ _ : Z, Some ()) [[0; 0; 0; 2; 2; 1]]%Z 0 1
             (Some [[[[0%R; 0%R; 2%R; 2%R]]]]) true ()).
Proof.
  apply (datagen_layout first_k (λ _ : Z, Some ()) [[0; 0; 0; 2; 2; 1]]%Z 0 1
           (Some [[[[0%R; 0%R; 2%R; 2%R]]]]) true () 1 1 1).
  repeat constructor.
Defined.

(** A run over one image with one ground-truth box and one anchor: the
    body returns, so index 0 is visited and an item is yielded there. *)
Example datagen_one_image :
  let run := datagen first_k (λ _ : Z, Some ()) [[0; 0; 0; 2; 2; 1]]%Z 0 1
                     (Some [[[[0%R; 0%R; 2%R; 2%R]]]]) true () in
  Forall (λ e, is_Some e.2) run ∧ fst <$> run = [0%Z].
Proof.
  cbv zeta.
  assert (H : Forall (λ e : Z * option (sample ()), is_Some e.2)
                (datagen first_k (λ _ : Z, Some ()) [[0; 0; 0; 2; 2; 1]]%Z 0 1
                         (Some [[[[0%R; 0%R; 2%R; 2%R]]]]) true ())).
  { apply datagen_complete; [exact first_k_ok | discriminate |].
    intros i Hi. apply list_elem_of_singleton in Hi. subst i.
    split; [discriminate | eauto]. }
  split; [exact H |].
  apply (datagen_loop_all first_k (λ _ : Z, Some ()) [[0; 0; 0; 2; 2; 1]]%Z) in H.
  exact H.
Qed.

(** ** Further facts about boxes *)

Section BoxExtras.
Local Open Scope R_scope.

Lemma zip_with_comm {X Y} (f : X → X → Y) (l k : list X) :
  (∀ x y, f x y = f y x) → zip_with f l k = zip_with f k l.
Proof.
  intros Hf. revert k. induction l as [| x l IH]; intros [| y k]; try reflexivity.
  simpl. rewrite Hf, IH. reflexivity.
Qed.

Lemma intersect_comm (b1 b2 : box) : intersect b1 b2 = intersect b2 b1.
Proof.
  unfold intersect, minimum, maximum.
  rewrite (zip_with_comm Rmin b1 b2 Rmin_comm), (zip_with_comm Rmax b1 b2 Rmax_comm).
  reflexivity.
Qed.

(** X1.  [intersect] and [iou] do not depend on the order of their two
    arguments, whatever the boxes. *)
Theorem iou_sym (b1 b2 : box) :
  intersect b1 b2 = intersect b2 b1 ∧ iou b1 b2 = iou b2 b1.
Proof.
  split; [apply intersect_comm |].
  unfold iou, union. cbv zeta. rewrite (intersect_comm b2 b1).
  f_equal. ring.
Qed.

Lemma iou_same_box (y1 x1 y2 x2 : R) :
  y1 < y2 → x1 < x2 → iou [y1; x1; y2; x2] [y1; x1; y2; x2] = 1.
Proof.
  intros Hy Hx. unfold iou. cbv zeta. rewrite intersect_eq, union_eq.
  unfold Rmin, Rmax. repeat destruct (Rle_dec _ _); try lra.
  field. nra.
Qed.

(** X2.  A box of positive height and width has IoU 1 with itself. *)
Theorem iou_self (y1 x1 y2 x2 : R) :
  y1 < y2 → x1 < x2 → iou [y1; x1; y2; x2] [y1; x1; y2; x2] = 1.
Proof. apply iou_same_box. Qed.

Lemma iou_self_witness : iou [0; 0; 2; 3] [0; 0; 2; 3] = 1.
Proof. apply (iou_self 0 0 2 3); lra. Defined.

Lemma overlap_zero_iff (lo1 hi1 lo2 hi2 : R) :
  lo1 < hi1 → lo2 < hi2 →
  Rmax (Rmin hi1 hi2 - Rmax lo1 lo2) 0 = 0 ↔ hi1 <= lo2 ∨ hi2 <= lo1.
Proof.
  intros H1 H2. unfold Rmax, Rmin.
  repeat destruct (Rle_dec _ _);
    (split;
     [ intros H; destruct (Rle_dec hi1 lo2); [left; assumption | right; lra]
     | intros [H | H]; lra ]).
Qed.

(** X3.  For two boxes of positive height and width the IoU is 0 exactly
    when the boxes are apart or only touch: one ends on an axis where the
    other begins. *)
Theorem iou_zero_iff (y1 x1 y2 x2 v1 u1 v2 u2 : R) :
  y1 < y2 → x1 < x2 → v1 < v2 → u1 < u2 →
  iou [y1; x1; y2; x2] [v1; u1; v2; u2] = 0
  ↔ y2 <= v1 ∨ v2 <= y1 ∨ x2 <= u1 ∨ u2 <= x1.
Proof.
  intros Hy Hx Hv Hu.
  pose proof (intersect_bounds y1 x1 y2 x2 v1 u1 v2 u2
                ltac:(lra) ltac:(lra) ltac:(lra) ltac:(lra)) as HB.
  cbv zeta in HB. destruct HB as (I0 & I1 & I2).
  assert (HU : 0 < union [y1; x1; y2; x2] [v1; u1; v2; u2]
                     (intersect [y1; x1; y2; x2] [v1; u1; v2; u2])).
  { rewrite union_eq. nra. }
  unfold iou. cbv zeta.
  set (u := union _ _ _) in *. set (i := intersect _ _) in *.
  assert (Hi : i / u = 0 ↔ i = 0).
  { split; [| intros ->; unfold Rdiv; ring].
    intros H. apply (Rmult_eq_compat_r u) in H.
    unfold Rdiv in H. rewrite Rmult_assoc, Rinv_l in H by lra. lra. }
  rewrite Hi. subst i. rewrite intersect_eq.
  pose proof (overlap_zero_iff x1 x2 u1 u2 Hx Hu) as Ox.
  pose proof (overlap_zero_iff y1 y2 v1 v2 Hy Hv) as Oy.
  split.
  - intros H. apply Rmult_integral in H. tauto.
  - intros H.
    assert (H' : Rmax (Rmin x2 u2 - Rmax x1 u1) 0 = 0
                 ∨ Rmax (Rmin y2 v2 - Rmax y1 v1) 0 = 0) by tauto.
    destruct H' as [-> | ->]; ring.
Qed.

Lemma iou_zero_iff_witness :
  iou [0; 0; 1; 1] [0; 1; 1; 2] = 0 ↔ 1 <= 0 ∨ 1 <= 0 ∨ 1 <= 1 ∨ 2 <= 0.
Proof. apply (iou_zero_iff 0 0 1 1 0 1 1 2); lra. Defined.

(** Two factors bounded by [w] and [h] whose product is [w * h] are [w]
    and [h]. *)
Lemma product_full (ox oy w h : R) :
  0 <= ox <= w → 0 <= oy <= h → 0 < w * h → ox * oy = w * h → ox = w ∧ oy = h.
Proof.
  intros Hx Hy Hpos Heq.
  assert (Hw : 0 < w) by nra. assert (Hh : 0 < h) by nra.
  assert (H1 : w * (h - oy) + (w - ox) * oy = 0) by nra.
  assert (H2 : 0 <= w * (h - oy)) by nra.
  assert (H3 : 0 <= (w - ox) * oy) by nra.
  assert (H4 : w * (h - oy) = 0) by lra.
  assert (Hoy : oy = h) by nra.
  subst oy. split; [nra | reflexivity].
Qed.

Lemma overlap_full (lo1 hi1 lo2 hi2 : R) :
  Rmax (Rmin hi1 hi2 - Rmax lo1 lo2) 0 = hi1 - lo1 →
  Rmax (Rmin hi1 hi2 - Rmax lo1 lo2) 0 = hi2 - lo2 →
  lo1 < hi1 → lo1 = lo2 ∧ hi1 = hi2.
Proof.
  unfold Rmax, Rmin. repeat destruct (Rle_dec _ _); intros E1 E2 H; split; lra.
Qed.

(** X4.  For two boxes with ordered corners, one of positive height and
    width, the IoU is 1 exactly when the two boxes are the same box. *)
Theorem iou_one_iff (y1 x1 y2 x2 v1 u1 v2 u2 : R) :
  y1 <= y2 → x1 <= x2 → v1 <= v2 → u1 <= u2 →
  (y1 < y2 ∧ x1 < x2) ∨ (v1 < v2 ∧ u1 < u2) →
  iou [y1; x1; y2; x2] [v1; u1; v2; u2] = 1
  ↔ [y1; x1; y2; x2] = [v1; u1; v2; u2].
Proof.
  intros Hy Hx Hv Hu Hpos. split.
  - intros Hone.
    pose proof (intersect_bounds y1 x1 y2 x2 v1 u1 v2 u2 Hy Hx Hv Hu) as HB.
    cbv zeta in HB. destruct HB as (I0 & I1 & I2).
    assert (HU : 0 < union [y1; x1; y2; x2] [v1; u1; v2; u2]
                       (intersect [y1; x1; y2; x2] [v1; u1; v2; u2])).
    { rewrite union_eq. destruct Hpos as [[? ?] | [? ?]]; nra. }
    unfold iou in Hone. cbv zeta in Hone.
    apply (Rmult_eq_compat_r
             (union [y1; x1; y2; x2] [v1; u1; v2; u2]
                    (intersect [y1; x1; y2; x2] [v1; u1; v2; u2]))) in Hone.
    unfold Rdiv in Hone. rewrite Rmult_assoc, Rinv_l, Rmult_1_r, Rmult_1_l in Hone by lra.
    rewrite union_eq in Hone. rewrite union_eq in HU.
    rewrite intersect_eq in *.
    set (ox := Rmax (Rmin x2 u2 - Rmax x1 u1) 0) in *.
    set (oy := Rmax (Rmin y2 v2 - Rmax y1 v1) 0) in *.
    assert (Box : 0 <= ox <= x2 - x1 ∧ ox <= u2 - u1) by (subst ox; minmax).
    assert (Boy : 0 <= oy <= y2 - y1 ∧ oy <= v2 - v1) by (subst oy; minmax).
    assert (E1 : ox * oy = (x2 - x1) * (y2 - y1)) by lra.
    assert (E2 : ox * oy = (u2 - u1) * (v2 - v1)) by lra.
    assert (P1 : 0 < (x2 - x1) * (y2 - y1)) by (destruct Hpos as [[? ?] | [? ?]]; nra).
    assert (P2 : 0 < (u2 - u1) * (v2 - v1)) by lra.
    destruct (product_full ox oy (x2 - x1) (y2 - y1)) as [Fx1 Fy1]; [lra | lra | lra | lra |].
    destruct (product_full ox oy (u2 - u1) (v2 - v1)) as [Fx2 Fy2]; [lra | lra | lra | lra |].
    assert (Hx' : x1 < x2) by nra. assert (Hy' : y1 < y2) by nra.
    destruct (overlap_full x1 x2 u1 u2 Fx1 Fx2 Hx') as [-> ->].
    destruct (overlap_full y1 y2 v1 v2 Fy1 Fy2 Hy') as [-> ->].
    reflexivity.
  - intros Heq. injection Heq as <- <- <- <-.
    unfold iou. cbv zeta. rewrite intersect_eq, union_eq.
    unfold Rmin, Rmax. repeat destruct (Rle_dec _ _); try lra;
      destruct Hpos as [[? ?] | [? ?]]; try lra; field; nra.
Qed.

Lemma iou_one_iff_witness :
  iou [0; 0; 2; 2] [0; 0; 2; 3] = 1 ↔ [0; 0; 2; 2] = [0; 0; 2; 3].
Proof. apply (iou_one_iff 0 0 2 2 0 0 2 3); lra. Defined.

Lemma shift_eq (dy dx y1 x1 y2 x2 : R) :
  shift dy dx [y1; x1; y2; x2] = [y1 + dy; x1 + dx; y2 + dy; x2 + dx].
Proof. reflexivity. Qed.

Lemma Rmin_plus (a b d : R) : Rmin (a + d) (b + d) = Rmin a b + d.
Proof. minmax. Qed.

Lemma Rmax_plus (a b d : R) : Rmax (a + d) (b + d) = Rmax a b + d.
Proof. minmax. Qed.

(** X5.  Moving an anchor and a ground-truth box by the same offset
    changes neither their IoU nor the offsets [coords2param] encodes. *)
Theorem iou_coords2param_shift (dy dx y1 x1 y2 x2 v1 u1 v2 u2 : R) :
  let b1 := [y1; x1; y2; x2] in
  let b2 := [v1; u1; v2; u2] in
  iou (shift dy dx b1) (shift dy dx b2) = iou b1 b2
  ∧ coords2param (shift dy dx b1) (shift dy dx b2) = coords2param b1 b2.
Proof.
  cbv zeta. rewrite !shift_eq. split.
  - unfold iou. cbv zeta. rewrite !intersect_eq, !union_eq.
    rewrite !Rmin_plus, !Rmax_plus.
    replace (Rmin x2 u2 + dx - (Rmax x1 u1 + dx)) with (Rmin x2 u2 - Rmax x1 u1) by ring.
    replace (Rmin y2 v2 + dy - (Rmax y1 v1 + dy)) with (Rmin y2 v2 - Rmax y1 v1) by ring.
    f_equal. ring.
  - rewrite !coords2param_eq.
    replace (u1 + dx - (x1 + dx)) with (u1 - x1) by ring.
    replace (x2 + dx - (x1 + dx)) with (x2 - x1) by ring.
    replace (y2 + dy - (y1 + dy)) with (y2 - y1) by ring.
    replace (u2 + dx - (u1 + dx)) with (u2 - u1) by ring.
    replace (v2 + dy - (v1 + dy)) with (v2 - v1) by ring.
    reflexivity.
Qed.

(** X6.  An anchor of positive height and width encoded against itself
    gives the offsets [0; 0; 0; 0]. *)
Theorem coords2param_self (y1 x1 y2 x2 : R) :
  y1 < y2 → x1 < x2 →
  coords2param [y1; x1; y2; x2] [y1; x1; y2; x2] = [0; 0; 0; 0].
Proof.
  intros Hy Hx. rewrite coords2param_eq.
  replace ((x1 - x1) / (x2 - x1)) with 0 by (field; lra).
  replace ((x1 - x1) / (y2 - y1)) with 0 by (field; lra).
  replace ((x2 - x1) / (x2 - x1)) with 1 by (field; lra).
  replace ((y2 - y1) / (y2 - y1)) with 1 by (field; lra).
  rewrite ln_1. reflexivity.
Qed.

Lemma coords2param_self_witness :
  coords2param [0; 0; 16; 16] [0; 0; 16; 16] = [0; 0; 0; 0].
Proof. apply (coords2param_self 0 0 16 16); lra. Defined.

(** X7.  The offsets of [coords2param] do not change when the
    ground-truth box alone is moved up or down: none of the four entries
    reads the vertical position of the ground-truth box, only its height. *)
Theorem coords2param_blind_to_gt_row (d y1 x1 y2 x2 gy1 gx1 gy2 gx2 : R) :
  coords2param [y1; x1; y2; x2] (shift d 0 [gy1; gx1; gy2; gx2])
  = coords2param [y1; x1; y2; x2] [gy1; gx1; gy2; gx2].
Proof.
  rewrite shift_eq, !coords2param_eq.
  replace (gx1 + 0) with gx1 by ring. replace (gx2 + 0) with gx2 by ring.
  replace (gy2 + d - (gy1 + d)) with (gy2 - gy1) by ring.
  reflexivity.
Qed.

End BoxExtras.

(** ** Further facts about the anchors and their assignment *)

Section AssignExtras.
Local Open Scope R_scope.

Lemma length_concat_const {X} (ls : list (list X)) (k : nat) :
  Forall (λ l : list X, length l = k) ls →
  length (concat ls) = (length ls * k)%nat.
Proof.
  induction 1 as [| l ls Hl _ IH]; [reflexivity |].
  rewrite concat_cons, length_app, IH, Hl. simpl. lia.
Qed.

Lemma shape3_flat3_length {X} (t : arr3 X) (r c k : nat) :
  shape3 t r c k → length (flat3 t) = (r * c * k)%nat.
Proof.
  intros [Hr Hrows]. unfold flat3.
  assert (Hcells : Forall (λ cell : list X, length cell = k) (concat t)).
  { apply Forall_forall. intros cell Hcell. apply elem_of_concat in Hcell.
    destruct Hcell as (row & Hrow & Hin).
    rewrite Forall_forall in Hrows. destruct (Hrows row Hrow) as [_ Hk].
    rewrite Forall_forall in Hk. apply Hk. exact Hin. }
  rewrite (length_concat_const _ k Hcells).
  rewrite (length_concat_const t c).
  - rewrite Hr. reflexivity.
  - eapply Forall_impl; [exact Hrows |]. intros row [Hc _]. exact Hc.
Qed.

Lemma get_anchors_shape (rows cols : nat) (sizes : list R) (stride : R) :
  shape3 (get_anchors rows cols sizes stride) rows cols (length sizes).
Proof.
  rewrite get_anchors_cells.
  split; [rewrite length_fmap, length_seq; reflexivity |].
  apply Forall_fmap, Forall_forall. intros i' _. simpl. split.
  - rewrite length_fmap, length_seq. reflexivity.
  - apply Forall_fmap, Forall_forall. intros j' _. simpl.
    apply cell_anchors_length.
Qed.

(** Every generated anchor is a square around a grid centre. *)
Lemma get_anchors_elem (rows cols : nat) (sizes : list R) (stride : R) (anc : box) :
  anc ∈ flat3 (get_anchors rows cols sizes stride) →
  ∃ cy cx s, s ∈ sizes
    ∧ anc = [cy + s * -0.5; cx + s * -0.5; cy + s * 0.5; cx + s * 0.5].
Proof.
  rewrite get_anchors_cells. unfold flat3. intros H.
  apply elem_of_concat in H. destruct H as (cell & Hcell & Hanc).
  apply elem_of_concat in Hcell. destruct Hcell as (row & Hrow & Hcell).
  apply list_elem_of_fmap in Hrow. destruct Hrow as (i & -> & _).
  apply list_elem_of_fmap in Hcell. destruct Hcell as (j & -> & _).
  apply list_elem_of_lookup in Hanc. destruct Hanc as (a & Ha).
  assert (Hlt : (a < length sizes)%nat).
  { apply lookup_lt_Some in Ha. rewrite cell_anchors_length in Ha. exact Ha. }
  destruct (lookup_lt_is_Some_2 sizes a Hlt) as [s Hs].
  rewrite (cell_anchors_lookup sizes stride (INR i) (INR j) s a Hs) in Ha.
  injection Ha as <-.
  exists (INR i * stride + 0.5), (INR j * stride + 0.5), s.
  split; [eapply list_elem_of_lookup_2; exact Hs | reflexivity].
Qed.

(** X8.  [get_anchors] returns rows * cols * len(sizes) boxes, arranged
    in shape (rows, cols, len(sizes)), each of four numbers; with rows,
    cols or sizes empty it returns no box at all. *)
Theorem get_anchors_count (rows cols : nat) (sizes : list R) (stride : R) :
  shape3 (get_anchors rows cols sizes stride) rows cols (length sizes)
  ∧ length (flat3 (get_anchors rows cols sizes stride))
    = (rows * cols * length sizes)%nat
  ∧ Forall (λ b : box, length b = 4%nat) (flat3 (get_anchors rows cols sizes stride)).
Proof.
  split; [apply get_anchors_shape |].
  split; [apply shape3_flat3_length, get_anchors_shape |].
  apply Forall_forall. intros anc Hanc. apply get_anchors_elem in Hanc.
  destruct Hanc as (cy & cx & s & _ & ->). reflexivity.
Qed.

(** The union area is positive and the IoU a number of [0, 1] for boxes
    with ordered corners, one of positive height and width. *)
Lemma iou_safe (y1 x1 y2 x2 v1 u1 v2 u2 : R) :
  y1 <= y2 → x1 <= x2 → v1 <= v2 → u1 <= u2 →
  (y1 < y2 ∧ x1 < x2) ∨ (v1 < v2 ∧ u1 < u2) →
  0 < union [y1; x1; y2; x2] [v1; u1; v2; u2]
            (intersect [y1; x1; y2; x2] [v1; u1; v2; u2])
  ∧ 0 <= iou [y1; x1; y2; x2] [v1; u1; v2; u2] <= 1.
Proof.
  intros Hy Hx Hv Hu Hpos.
  pose proof (intersect_bounds y1 x1 y2 x2 v1 u1 v2 u2 Hy Hx Hv Hu) as HB.
  cbv zeta in HB. destruct HB as (I0 & I1 & I2).
  assert (HU : 0 < union [y1; x1; y2; x2] [v1; u1; v2; u2]
                     (intersect [y1; x1; y2; x2] [v1; u1; v2; u2])).
  { rewrite union_eq. destruct Hpos as [[? ?] | [? ?]]; nra. }
  split; [exact HU |]. unfold iou. cbv zeta.
  apply quotient_unit_interval; [lra | | exact HU].
  rewrite union_eq. lra.
Qed.

(** X9.  For sizes that are all positive, every anchor generated by
    [get_anchors] has a positive union area with every ground-truth box
    whose corners are in order, so [iou] divides by a positive number
    there and its value lies in [0, 1]. *)
Theorem get_anchors_iou_safe (rows cols : nat) (sizes : list R) (stride : R)
    (anc : box) (v1 u1 v2 u2 : R) :
  Forall (λ s : R, 0 < s) sizes →
  anc ∈ flat3 (get_anchors rows cols sizes stride) →
  v1 <= v2 → u1 <= u2 →
  positive anc
  ∧ 0 < union anc [v1; u1; v2; u2] (intersect anc [v1; u1; v2; u2])
  ∧ 0 <= iou anc [v1; u1; v2; u2] <= 1.
Proof.
  intros Hsz Hanc Hv Hu. apply get_anchors_elem in Hanc.
  destruct Hanc as (cy & cx & s & Hs & ->).
  rewrite Forall_forall in Hsz. pose proof (Hsz s Hs) as Hpos.
  split; [unfold positive, ix; simpl; lra |].
  apply iou_safe; first [lra | left; lra].
Qed.

Lemma get_anchors_iou_safe_witness :
  positive [-7.5; -7.5; 8.5; 8.5]
  ∧ 0 < union [-7.5; -7.5; 8.5; 8.5] [0; 0; 2; 2]
              (intersect [-7.5; -7.5; 8.5; 8.5] [0; 0; 2; 2])
  ∧ 0 <= iou [-7.5; -7.5; 8.5; 8.5] [0; 0; 2; 2] <= 1.
Proof.
  apply (get_anchors_iou_safe 1 1 [16] 4 [-7.5; -7.5; 8.5; 8.5] 0 0 2 2).
  - repeat constructor. lra.
  - eapply get3_flat3. apply get_anchors_first.
  - lra.
  - lra.
Defined.

Lemma flat3_get3 {X} (t : arr3 X) (x : X) :
  x ∈ flat3 t → ∃ i j a, get3 t i j a = Some x.
Proof.
  unfold flat3, get3. intros H.
  apply elem_of_concat in H. destruct H as (cell & Hcell & Hx).
  apply elem_of_concat in Hcell. destruct Hcell as (row & Hrow & Hcell).
  apply list_elem_of_lookup in Hrow. destruct Hrow as (i & Hi).
  apply list_elem_of_lookup in Hcell. destruct Hcell as (j & Hj).
  apply list_elem_of_lookup in Hx. destruct Hx as (a & Ha).
  exists i, j, a. rewrite Hi. simpl. rewrite Hj. exact Ha.
Qed.

(** What [anchors_vs_gt] holds for one anchor when it returns. *)
Lemma anchors_vs_gt_at (ancs : arr3 box) (gtbs : list box) (lo hi : R)
    (pos neg : arr3 bool) (params : arr3 (list R)) (i j a : nat) (anc : box) :
  anchors_vs_gt ancs gtbs lo hi = Some (pos, neg, params) →
  get3 ancs i j a = Some anc →
  gtbs ≠ [] ∧ flat3 ancs ≠ []
  ∧ get3 pos i j a
    = Some (bool_decide (hi <= vmax (iou anc <$> gtbs))
            || soft_pos (iou anc <$> gtbs) (best_of ancs gtbs))
  ∧ get3 neg i j a = Some (bool_decide (vmax (iou anc <$> gtbs) <= lo))
  ∧ get3 params i j a
    = Some (coords2param anc (gtbs !!! argmax (iou anc <$> gtbs))).
Proof.
  intros H Hanc.
  destruct (proj1 (anchors_vs_gt_Some ancs gtbs lo hi)) as [Hg Ha]; [eauto |].
  rewrite (anchors_vs_gt_entrywise ancs gtbs lo hi Hg Ha) in H.
  injection H as <- <- <-.
  split; [exact Hg |]. split; [exact Ha |].
  rewrite !get3_map3, Hanc. auto.
Qed.

(** X10.  [anchors_vs_gt] raises exactly when there is no ground-truth
    box (np.stack of an empty list) or no anchor (the maximum over an
    empty axis); otherwise it returns. *)
Theorem anchors_vs_gt_raises_iff (ancs : arr3 box) (gtbs : list box) (lo hi : R) :
  anchors_vs_gt ancs gtbs lo hi = None ↔ gtbs = [] ∨ flat3 ancs = [].
Proof.
  pose proof (anchors_vs_gt_Some ancs gtbs lo hi) as HS. split.
  - intros HN.
    destruct gtbs as [| g gtbs]; [left; reflexivity |].
    destruct (flat3 ancs) as [| b bs] eqn:E; [right; reflexivity |].
    destruct (proj2 HS) as [r Hr]; [split; discriminate |]. congruence.
  - intros Hor. destruct (anchors_vs_gt ancs gtbs lo hi) eqn:E; [| reflexivity].
    destruct (proj1 HS) as [Hg Ha]; [eauto |]. tauto.
Qed.

(** X11.  The three arrays [anchors_vs_gt] returns have the shape of the
    anchor array, and every entry of the third is a list of four offsets. *)
Theorem anchors_vs_gt_shapes (ancs : arr3 box) (gtbs : list box) (lo hi : R)
    (pos neg : arr3 bool) (params : arr3 (list R)) (r c n : nat) :
  anchors_vs_gt ancs gtbs lo hi = Some (pos, neg, params) →
  shape3 ancs r c n →
  shape3 pos r c n ∧ shape3 neg r c n ∧ shape3 params r c n
  ∧ Forall (λ t : list R, length t = 4%nat) (flat3 params).
Proof.
  intros H Hs.
  destruct (proj1 (anchors_vs_gt_Some ancs gtbs lo hi)) as [Hg Ha]; [eauto |].
  rewrite (anchors_vs_gt_entrywise ancs gtbs lo hi Hg Ha) in H.
  injection H as <- <- <-.
  split; [apply shape3_map3; exact Hs |]. split; [apply shape3_map3; exact Hs |].
  split; [apply shape3_map3; exact Hs |].
  rewrite flat3_map3. apply Forall_fmap, Forall_forall. intros b _. reflexivity.
Qed.

(** X12.  Every ground-truth box that has a positive IoU with some anchor
    gets at least one positive anchor: an anchor whose IoU with that box
    is the greatest of all anchors is marked positive, whatever [hi]. *)
Theorem overlapped_gt_gets_positive (ancs : arr3 box) (gtbs : list box) (lo hi : R)
    (g b : box) :
  g ∈ gtbs → b ∈ flat3 ancs → 0 < iou b g →
  ∃ pos neg params i j a anc,
    anchors_vs_gt ancs gtbs lo hi = Some (pos, neg, params)
    ∧ get3 ancs i j a = Some anc
    ∧ is_max_over (flat3 ancs) (λ b', iou b' g) (iou anc g)
    ∧ get3 pos i j a = Some true.
Proof.
  intros Hg Hb Hpos.
  assert (Hgne : gtbs ≠ []) by (intros ->; apply elem_of_nil in Hg; exact Hg).
  assert (Hane : flat3 ancs ≠ []).
  { intros E. rewrite E in Hb. apply elem_of_nil in Hb. exact Hb. }
  pose proof (vmax_is_max (flat3 ancs) (λ b', iou b' g) Hane) as Hmax.
  destruct Hmax as [(anc & Hanc & Heq) Hall].
  destruct (flat3_get3 ancs anc Hanc) as (i & j & a & Hget).
  rewrite (anchors_vs_gt_entrywise ancs gtbs lo hi Hgne Hane).
  eexists _, _, _, i, j, a, anc. split; [reflexivity |].
  split; [exact Hget |]. split.
  - split; [exists anc; auto |]. intros b' Hb'. rewrite Heq. apply Hall. exact Hb'.
  - rewrite get3_map3, Hget. simpl. f_equal.
    apply (positive_rule_iff ancs gtbs hi anc Hgne Hane).
    right. exists g, (iou anc g). split; [exact Hg |].
    split; [| split; [reflexivity |]].
    + split; [exists anc; auto |]. intros b' Hb'. rewrite Heq. apply Hall. exact Hb'.
    + pose proof (Hall b Hb) as Hle. simpl in Hle. rewrite Heq. lra.
Qed.

Lemma overlapped_gt_gets_positive_witness :
  ∃ pos neg params i j a anc,
    anchors_vs_gt [[[[0; 0; 2; 2]]]] [[0; 0; 2; 2]] 0.3 0.7 = Some (pos, neg, params)
    ∧ get3 [[[[0; 0; 2; 2]]]] i j a = Some anc
    ∧ is_max_over (flat3 [[[[0; 0; 2; 2]]]]) (λ b', iou b' [0; 0; 2; 2])
                  (iou anc [0; 0; 2; 2])
    ∧ get3 pos i j a = Some true.
Proof.
  apply (overlapped_gt_gets_positive [[[[0; 0; 2; 2]]]] [[0; 0; 2; 2]] 0.3 0.7
           [0; 0; 2; 2] [0; 0; 2; 2]).
  - left.
  - left.
  - rewrite (iou_same_box 0 0 2 2) by lra. lra.
Defined.

(** X13.  With lo < hi an anchor is marked both positive and negative
    only through the soft rule: it then has, with some ground-truth box,
    the greatest IoU of all anchors, positive but at most [lo]. *)
Theorem positive_and_negative (ancs : arr3 box) (gtbs : list box) (lo hi : R)
    (pos neg : arr3 bool) (params : arr3 (list R)) (i j a : nat) (anc : box) :
  lo < hi →
  anchors_vs_gt ancs gtbs lo hi = Some (pos, neg, params) →
  get3 ancs i j a = Some anc →
  get3 pos i j a = Some true → get3 neg i j a = Some true →
  ∃ g m, g ∈ gtbs ∧ is_max_over (flat3 ancs) (λ b, iou b g) m
         ∧ iou anc g = m ∧ 0 < m ∧ m <= lo.
Proof.
  intros Hlh H Hanc Hp Hn.
  destruct (anchors_vs_gt_at _ _ _ _ _ _ _ _ _ _ _ H Hanc) as (Hg & Ha & Ep & En & _).
  rewrite Ep in Hp. injection Hp as Hp. rewrite En in Hn. injection Hn as Hn.
  apply (positive_rule_iff ancs gtbs hi anc Hg Ha) in Hp.
  apply (negative_rule_iff gtbs lo anc Hg) in Hn.
  destruct Hn as (m & Hm & Hlo).
  destruct Hp as [(m' & Hm' & Hhi) | (g & mg & Hin & Hmax & Heq & Hpos)].
  - rewrite (is_max_over_unique _ _ _ _ Hm' Hm) in Hhi. lra.
  - exists g, mg. split; [exact Hin |]. split; [exact Hmax |].
    split; [exact Heq |]. split; [exact Hpos |].
    destruct Hm as [_ Hall]. specialize (Hall g Hin). lra.
Qed.

(** X14.  With hi > 0 and lo >= 0, an anchor whose IoU with every
    ground-truth box is 0 is marked negative and not positive. *)
Theorem no_overlap_is_negative (ancs : arr3 box) (gtbs : list box) (lo hi : R)
    (pos neg : arr3 bool) (params : arr3 (list R)) (i j a : nat) (anc : box) :
  0 <= lo → 0 < hi →
  anchors_vs_gt ancs gtbs lo hi = Some (pos, neg, params) →
  get3 ancs i j a = Some anc →
  (∀ g, g ∈ gtbs → iou anc g = 0) →
  get3 pos i j a = Some false ∧ get3 neg i j a = Some true.
Proof.
  intros Hlo Hhi H Hanc Hzero.
  destruct (anchors_vs_gt_at _ _ _ _ _ _ _ _ _ _ _ H Hanc) as (Hg & Ha & Ep & En & _).
  pose proof (vmax_is_max gtbs (iou anc) Hg) as Hrow.
  assert (Hv : vmax (iou anc <$> gtbs) = 0).
  { destruct Hrow as [(g & Hin & <-) _]. apply Hzero. exact Hin. }
  rewrite Ep, En. split; f_equal.
  - destruct (bool_decide (hi <= vmax (iou anc <$> gtbs))
              || soft_pos (iou anc <$> gtbs) (best_of ancs gtbs)) eqn:E; [| reflexivity].
    apply (positive_rule_iff ancs gtbs hi anc Hg Ha) in E.
    destruct E as [(m & Hm & Hm') | (g & mg & Hin & _ & Heq & Hpos)].
    + rewrite <- (is_max_over_unique _ _ _ _ Hrow Hm), Hv in Hm'. lra.
    + rewrite (Hzero g Hin) in Heq. lra.
  - apply bool_decide_eq_true. rewrite Hv. exact Hlo.
Qed.

(** One anchor and one ground-truth box with IoU 1/7: the anchor is the
    best one for the box, so it is positive, and 1/7 <= 0.3, so it is
    negative as well. *)
Example anchors_vs_gt_soft_and_negative :
  anchors_vs_gt [[[[0; 0; 2; 2]]]] [[1; 1; 3; 3]] 0.3 0.7
  = Some ([[[true]]], [[[true]]],
          [[[[(1 - 0) / (2 - 0); (1 - 0) / (2 - 0);
              ln ((3 - 1) / (2 - 0)); ln ((3 - 1) / (2 - 0))]]]]).
Proof.
  rewrite anchors_vs_gt_entrywise by discriminate.
  unfold map3, best_of, soft_pos, flat3. csimpl. rewrite iou_shifted_squares.
  rewrite (bool_decide_eq_false_2 (0.7 <= 1 / 7)) by lra.
  rewrite (bool_decide_eq_true_2 (1 / 7 = 1 / 7)) by reflexivity.
  rewrite (bool_decide_eq_true_2 (0 < 1 / 7)) by lra.
  rewrite (bool_decide_eq_true_2 (1 / 7 <= 0.3)) by lra.
  reflexivity.
Qed.

(** One anchor apart from the only ground-truth box: negative only. *)
Example anchors_vs_gt_apart :
  anchors_vs_gt [[[[0; 0; 1; 1]]]] [[2; 2; 3; 3]] 0.3 0.7
  = Some ([[[false]]], [[[true]]],
          [[[[(2 - 0) / (1 - 0); (2 - 0) / (1 - 0);
              ln ((3 - 2) / (1 - 0)); ln ((3 - 2) / (1 - 0))]]]]).
Proof.
  rewrite anchors_vs_gt_entrywise by discriminate.
  unfold map3, best_of, soft_pos, flat3. csimpl. rewrite iou_disjoint.
  rewrite (bool_decide_eq_false_2 (0.7 <= 0)) by lra.
  rewrite (bool_decide_eq_false_2 (0 < 0)) by lra.
  rewrite (bool_decide_eq_true_2 (0 <= 0.3)) by lra.
  rewrite andb_false_r. reflexivity.
Qed.

Lemma positive_and_negative_witness :
  ∃ g m, g ∈ [[1; 1; 3; 3]]
         ∧ is_max_over (flat3 [[[[0; 0; 2; 2]]]]) (λ b, iou b g) m
         ∧ iou [0; 0; 2; 2] g = m ∧ 0 < m ∧ m <= 0.3.
Proof.
  apply (positive_and_negative [[[[0; 0; 2; 2]]]] [[1; 1; 3; 3]] 0.3 0.7
           [[[true]]] [[[true]]]
           [[[[(1 - 0) / (2 - 0); (1 - 0) / (2 - 0);
               ln ((3 - 1) / (2 - 0)); ln ((3 - 1) / (2 - 0))]]]]
           0 0 0 [0; 0; 2; 2]).
  - lra.
  - exact anchors_vs_gt_soft_and_negative.
  - reflexivity.
  - reflexivity.
  - reflexivity.
Defined.

Lemma no_overlap_is_negative_witness :
  get3 [[[false]]] 0 0 0 = Some false ∧ get3 [[[true]]] 0 0 0 = Some true.
Proof.
  apply (no_overlap_is_negative [[[[0; 0; 1; 1]]]] [[2; 2; 3; 3]] 0.3 0.7
           [[[false]]] [[[true]]]
           [[[[(2 - 0) / (1 - 0); (2 - 0) / (1 - 0);
               ln ((3 - 2) / (1 - 0)); ln ((3 - 2) / (1 - 0))]]]]
           0 0 0 [0; 0; 1; 1]).
  - lra.
  - lra.
  - exact anchors_vs_gt_apart.
  - reflexivity.
  - intros g Hg. apply list_elem_of_singleton in Hg. subst g. exact iou_disjoint.
Defined.

Lemma anchors_vs_gt_shapes_witness :
  shape3 [[[false]]] 1 1 1 ∧ shape3 [[[true]]] 1 1 1
  ∧ shape3 [[[[(2 - 0) / (1 - 0); (2 - 0) / (1 - 0);
               ln ((3 - 2) / (1 - 0)); ln ((3 - 2) / (1 - 0))]]]] 1 1 1
  ∧ Forall (λ t : list R, length t = 4%nat)
      (flat3 [[[[(2 - 0) / (1 - 0); (2 - 0) / (1 - 0);
                 ln ((3 - 2) / (1 - 0)); ln ((3 - 2) / (1 - 0))]]]]).
Proof.
  apply (anchors_vs_gt_shapes [[[[0; 0; 1; 1]]]] [[2; 2; 3; 3]] 0.3 0.7).
  - exact anchors_vs_gt_apart.
  - repeat constructor.
Defined.

End AssignExtras.

(** ** Further facts about [filter_boxes] *)

Section FilterExtras.
Context {rng : Type}.
Variable choice : nat → nat → rng → list nat * rng.

(** Masks within both caps pass through, and no number is drawn. *)
Lemma filter_boxes_within (pos neg : arr3 bool) (num : Z) (g : rng) :
  (2 * Z.of_nat (count_true pos) ≤ num)%Z →
  (Z.of_nat (count_true neg) + Z.of_nat (count_true pos) ≤ num)%Z →
  filter_boxes choice pos neg num g = Some (pos, neg, g).
Proof.
  intros H1 H2. unfold filter_boxes.
  rewrite bool_decide_eq_false_2 by lia. simpl.
  rewrite bool_decide_eq_false_2 by lia. reflexivity.
Qed.

(** X15.  When pos has at most num/2 true entries and pos and neg
    together at most num, [filter_boxes] returns both masks unchanged
    and draws no random number (the generator state is the one given). *)
Theorem filter_boxes_unchanged (pos neg : arr3 bool) (num : Z) (g : rng) :
  (2 * Z.of_nat (count_true pos) ≤ num)%Z →
  (Z.of_nat (count_true neg) + Z.of_nat (count_true pos) ≤ num)%Z →
  filter_boxes choice pos neg num g = Some (pos, neg, g).
Proof. apply filter_boxes_within. Qed.

(** X16.  For a negative [num], [filter_boxes] raises: the first draw
    asks for more samples than there are true entries of pos (or draws
    from an empty range). *)
Theorem filter_boxes_negative_num (pos neg : arr3 bool) (num : Z) (g : rng) :
  (num < 0)%Z → filter_boxes choice pos neg num g = None.
Proof.
  intros Hnum. unfold filter_boxes.
  rewrite bool_decide_eq_true_2 by lia.
  assert (Hh : (num / 2 < 0)%Z) by (apply Z.div_lt_upper_bound; lia).
  assert (E : random_choice choice (count_true pos)
                (Z.of_nat (count_true pos) - num / 2) g = None).
  { unfold random_choice. rewrite bool_decide_eq_false_2 by lia. reflexivity. }
  rewrite E. reflexivity.
Qed.

(** X17.  [filter_boxes] returns masks of the shape of the masks given. *)
Theorem filter_boxes_keeps_shape (pos neg : arr3 bool) (num : Z) (g : rng)
    (pos' neg' : arr3 bool) (g' : rng) (r c k : nat) :
  filter_boxes choice pos neg num g = Some (pos', neg', g') →
  shape3 pos r c k → shape3 neg r c k →
  shape3 pos' r c k ∧ shape3 neg' r c k.
Proof. apply filter_boxes_shape. Qed.

Hypothesis choice_ok :
  ∀ (n k : nat) (g : rng), k ≤ n → choice_outcome n k (choice n k g).1.

(** The counts [filter_boxes] leaves, for any [num >= 0]. *)
Lemma filter_boxes_counts (pos neg : arr3 bool) (num : Z) (g : rng) :
  (0 ≤ num)%Z →
  ∃ pos' neg' g',
    filter_boxes choice pos neg num g = Some (pos', neg', g')
    ∧ Z.of_nat (count_true pos') = Z.min (Z.of_nat (count_true pos)) (num / 2)
    ∧ Z.of_nat (count_true neg')
      = Z.min (Z.of_nat (count_true neg)) (num - Z.of_nat (count_true pos')).
Proof.
  intros Hnum. unfold filter_boxes.
  set (P := count_true pos). set (N := count_true neg).
  assert (Hh : (2 * (num / 2) ≤ num < 2 * (num / 2) + 2)%Z).
  { pose proof (Z.div_mod num 2 ltac:(lia)) as Hdm.
    pose proof (Z.mod_pos_bound num 2 ltac:(lia)). lia. }
  set (h := (num / 2)%Z) in *.
  assert (S1 : ∃ pos' p' g1,
    (if bool_decide (num < 2 * Z.of_nat P)%Z
     then '(c, g1) ← random_choice choice P (Z.of_nat P - h) g;
          Some (clear_at pos (pick pos c), h, g1)
     else Some (pos, Z.of_nat P, g)) = Some (pos', p', g1)
    ∧ p' = Z.of_nat (count_true pos') ∧ p' = Z.min (Z.of_nat P) h).
  { case_bool_decide as Hc.
    - destruct (random_choice_ok choice choice_ok P (Z.of_nat P - h) g)
        as (c & g1 & Hrc & Hout); [lia | lia |].
      rewrite Hrc. simpl.
      destruct (clear_pick pos _ c Hout) as [Hcount _]. fold P in Hcount.
      exists (clear_at pos (pick pos c)), h, g1.
      split; [reflexivity |]. split; lia.
    - exists pos, (Z.of_nat P), g. split; [reflexivity |].
      split; [reflexivity | lia]. }
  destruct S1 as (pos' & p' & g1 & -> & Hp' & Hmin). simpl.
  case_bool_decide as Hc.
  - destruct (random_choice_ok choice choice_ok N (Z.of_nat N - num + p') g1)
      as (c & g2 & Hrc & Hout); [lia | lia |].
    rewrite Hrc. simpl.
    destruct (clear_pick neg _ c Hout) as [Hcount _]. fold N in Hcount.
    exists pos', (clear_at neg (pick neg c)), g2.
    split; [reflexivity |]. split; lia.
  - exists pos', neg, g1. split; [reflexivity |]. fold N. split; lia.
Qed.

(** X18.  For [num >= 0] and every outcome of the draws, [filter_boxes]
    leaves exactly min(p, num//2) true entries in pos and exactly
    min(n, num - that) in neg, where p and n are the numbers of true
    entries given: the batch is filled up to [num] whenever the masks
    have enough entries. *)
Theorem filter_boxes_exact_counts (pos neg : arr3 bool) (num : Z) (g : rng) :
  (0 ≤ num)%Z →
  ∃ pos' neg' g',
    filter_boxes choice pos neg num g = Some (pos', neg', g')
    ∧ Z.of_nat (count_true pos') = Z.min (Z.of_nat (count_true pos)) (num / 2)
    ∧ Z.of_nat (count_true neg')
      = Z.min (Z.of_nat (count_true neg)) (num - Z.of_nat (count_true pos')).
Proof. apply filter_boxes_counts. Qed.

(** X19.  For [num >= 0], filtering the masks [filter_boxes] returned
    once more changes nothing and draws nothing. *)
Theorem filter_boxes_idempotent (pos neg : arr3 bool) (num : Z) (g : rng)
    (pos' neg' : arr3 bool) (g' g2 : rng) :
  (0 ≤ num)%Z →
  filter_boxes choice pos neg num g = Some (pos', neg', g') →
  filter_boxes choice pos' neg' num g2 = Some (pos', neg', g2).
Proof.
  intros Hnum Hrun.
  destruct (filter_boxes_counts pos neg num g Hnum) as (p1 & n1 & g1 & Hrun' & Hp & Hn).
  rewrite Hrun in Hrun'. injection Hrun' as <- <- <-.
  assert (Hh : (2 * (num / 2) ≤ num)%Z).
  { pose proof (Z.div_mod num 2 ltac:(lia)) as Hdm.
    pose proof (Z.mod_pos_bound num 2 ltac:(lia)). lia. }
  apply filter_boxes_within; lia.
Qed.

End FilterExtras.

Lemma filter_boxes_unchanged_witness :
  filter_boxes first_k [[[true; false]]] [[[false; true]]] 2 ()
  = Some ([[[true; false]]], [[[false; true]]], ()).
Proof.
  apply (filter_boxes_unchanged first_k [[[true; false]]] [[[false; true]]] 2 ());
    vm_compute; discriminate.
Defined.

Lemma filter_boxes_negative_num_witness :
  filter_boxes first_k [[[true; false]]] [[[false; true]]] (-1) () = None.
Proof.
  apply (filter_boxes_negative_num first_k [[[true; false]]] [[[false; true]]] (-1) ()).
  lia.
Defined.

Lemma filter_boxes_keeps_shape_witness :
  shape3 [[[false; false; false]; [false; true; false]]] 1 2 3
  ∧ shape3 [[[false; false; false]; [false; false; true]]] 1 2 3.
Proof.
  apply (filter_boxes_keeps_shape first_k
           [[[true; true; true]; [false; true; false]]]
           [[[false; false; false]; [true; false; true]]] 2 ()
           [[[false; false; false]; [false; true; false]]]
           [[[false; false; false]; [false; false; true]]] ()).
  - reflexivity.
  - repeat constructor.
  - repeat constructor.
Defined.

Lemma filter_boxes_exact_counts_witness :
  let pos := [[[true; true; true]; [false; true; false]]] in
  let neg := [[[false; false; false]; [true; false; true]]] in
  ∃ pos' neg' g',
    filter_boxes first_k pos neg 2 () = Some (pos', neg', g')
    ∧ Z.of_nat (count_true pos') = Z.min (Z.of_nat (count_true pos)) (2 / 2)
    ∧ Z.of_nat (count_true neg')
      = Z.min (Z.of_nat (count_true neg)) (2 - Z.of_nat (count_true pos')).
Proof.
  apply (filter_boxes_exact_counts first_k first_k_ok). lia.
Defined.

Lemma filter_boxes_idempotent_witness :
  filter_boxes first_k
    [[[false; false; false]; [false; true; false]]]
    [[[false; false; false]; [false; false; true]]] 2 ()
  = Some ([[[false; false; false]; [false; true; false]]],
          [[[false; false; false]; [false; false; true]]], ()).
Proof.
  apply (filter_boxes_idempotent first_k first_k_ok
           [[[true; true; true]; [false; true; false]]]
           [[[false; false; false]; [true; false; true]]] 2 ()
           _ _ () ()).
  - lia.
  - reflexivity.
Defined.

(** ** Further facts about the losses *)

Section LossExtras.
Local Open Scope R_scope.

Lemma smoothL1_nonneg (d : R) : 0 <= smoothL1 d.
Proof.
  unfold smoothL1. case_bool_decide as H.
  - simpl. nra.
  - lra.
Qed.

Lemma smoothL1_0 : smoothL1 0 = 0.
Proof.
  unfold smoothL1. rewrite Rabs_R0.
  rewrite bool_decide_eq_true_2 by lra. simpl. ring.
Qed.

Lemma sum_upto_nonneg (n : nat) (f : nat → R) :
  (∀ i, (i < n)%nat → 0 <= f i) → 0 <= sum_upto n f.
Proof.
  revert f. induction n as [| n IH]; intros f H.
  - unfold sum_upto. simpl. lra.
  - rewrite sum_upto_S.
    pose proof (H 0%nat ltac:(lia)).
    pose proof (IH (λ i, f (S i)) ltac:(intros i Hi; apply H; lia)). lra.
Qed.

Lemma sum_upto_zero (n : nat) (f : nat → R) :
  (∀ i, (i < n)%nat → f i = 0) → sum_upto n f = 0.
Proof.
  revert f. induction n as [| n IH]; intros f H.
  - reflexivity.
  - rewrite sum_upto_S, (H 0%nat) by lia.
    rewrite (IH (λ i, f (S i))) by (intros i Hi; apply H; lia). lra.
Qed.

(** X20.  For [ytrue] of shape (rows, cols, 8*num_ancs) whose first
    4*num_ancs channels (the weights) are >= 0, [rpn_regr_loss] is >= 0,
    and it is 0 when the prediction equals the target on every channel
    of non-zero weight. *)
Theorem rpn_regr_loss_nonneg (num_ancs rows cols : nat) (ytrue ypred : arr3 R) :
  shape3 ytrue rows cols (8 * num_ancs) →
  shape3 ypred rows cols (4 * num_ancs) →
  (∀ i j c, (i < rows)%nat → (j < cols)%nat → (c < 4 * num_ancs)%nat →
     0 <= at3 ytrue i j c) →
  0 <= rpn_regr_loss num_ancs ytrue ypred
  ∧ ((∀ i j c, (i < rows)%nat → (j < cols)%nat → (c < 4 * num_ancs)%nat →
        at3 ytrue i j c ≠ 0 →
        at3 ypred i j c = at3 ytrue i j (4 * num_ancs + c)) →
     rpn_regr_loss num_ancs ytrue ypred = 0).
Proof.
  intros Hyt Hyp Hw. rewrite (rpn_regr_loss_sum num_ancs rows cols ytrue ypred Hyt Hyp).
  unfold regr_sum. split.
  - apply sum_upto_nonneg. intros i Hi. apply sum_upto_nonneg. intros j Hj.
    apply sum_upto_nonneg. intros c Hc.
    apply Rmult_le_pos; [apply Hw; assumption | apply smoothL1_nonneg].
  - intros Hperfect.
    apply sum_upto_zero. intros i Hi. apply sum_upto_zero. intros j Hj.
    apply sum_upto_zero. intros c Hc.
    destruct (Req_dec_T (at3 ytrue i j c) 0) as [-> | Hne]; [ring |].
    rewrite (Hperfect i j c Hi Hj Hc Hne), Rminus_diag, smoothL1_0. ring.
Qed.

Lemma rpn_regr_loss_nonneg_witness :
  0 <= rpn_regr_loss 1 [[[1; 0; 1; 0; 3; 0; 0; 0]]] [[[3; 9; 0; 9]]]
  ∧ ((∀ i j c, (i < 1)%nat → (j < 1)%nat → (c < 4 * 1)%nat →
        at3 [[[1; 0; 1; 0; 3; 0; 0; 0]]] i j c ≠ 0 →
        at3 [[[3; 9; 0; 9]]] i j c = at3 [[[1; 0; 1; 0; 3; 0; 0; 0]]] i j (4 * 1 + c)) →
     rpn_regr_loss 1 [[[1; 0; 1; 0; 3; 0; 0; 0]]] [[[3; 9; 0; 9]]] = 0).
Proof.
  apply (rpn_regr_loss_nonneg 1 1 1); [repeat constructor | repeat constructor |].
  intros i j c Hi Hj Hc.
  destruct i as [| i]; [| lia]. destruct j as [| j]; [| lia].
  do 4 (destruct c as [| c]; [unfold at3; simpl; lra |]). lia.
Defined.

(** X21.  [rpn_regr_loss] does not read the prediction on channels of
    weight 0: two predictions that agree on every channel whose weight
    (the channel of [ytrue] among the first 4*num_ancs) is not 0 have the
    same loss. *)
Theorem rpn_regr_loss_ignores_unmarked (num_ancs rows cols : nat)
    (ytrue ypred1 ypred2 : arr3 R) :
  shape3 ytrue rows cols (8 * num_ancs) →
  shape3 ypred1 rows cols (4 * num_ancs) →
  shape3 ypred2 rows cols (4 * num_ancs) →
  (∀ i j c, (i < rows)%nat → (j < cols)%nat → (c < 4 * num_ancs)%nat →
     at3 ytrue i j c ≠ 0 → at3 ypred1 i j c = at3 ypred2 i j c) →
  rpn_regr_loss num_ancs ytrue ypred1 = rpn_regr_loss num_ancs ytrue ypred2.
Proof.
  intros Hyt Hp1 Hp2 Hagree.
  rewrite (rpn_regr_loss_sum num_ancs rows cols ytrue ypred1 Hyt Hp1).
  rewrite (rpn_regr_loss_sum num_ancs rows cols ytrue ypred2 Hyt Hp2).
  unfold regr_sum.
  apply sum_upto_ext. intros i Hi. apply sum_upto_ext. intros j Hj.
  apply sum_upto_ext. intros c Hc.
  destruct (Req_dec_T (at3 ytrue i j c) 0) as [-> | Hne]; [ring |].
  rewrite (Hagree i j c Hi Hj Hc Hne). reflexivity.
Qed.

Lemma rpn_regr_loss_ignores_unmarked_witness :
  rpn_regr_loss 1 [[[1; 0; 1; 0; 3; 0; 0; 0]]] [[[2; 5; 1; 5]]]
  = rpn_regr_loss 1 [[[1; 0; 1; 0; 3; 0; 0; 0]]] [[[2; 7; 1; 8]]].
Proof.
  apply (rpn_regr_loss_ignores_unmarked 1 1 1);
    [repeat constructor | repeat constructor | repeat constructor |].
  intros i j c Hi Hj Hc.
  destruct i as [| i]; [| lia]. destruct j as [| j]; [| lia].
  do 4 (destruct c as [| c];
        [unfold at3; simpl; first [reflexivity | intros Hne; exfalso; apply Hne; reflexivity] |]).
  lia.
Defined.

(** X22.  [rpn_cls_loss] does not read the prediction at anchors that
    are neither positive nor negative: two predictions that agree at
    every anchor whose positive or negative channel of [ptrue] is not 0
    have the same loss. *)
Theorem rpn_cls_loss_ignores_unmarked (num_ancs rows cols : nat)
    (ptrue ppred1 ppred2 : arr3 R) :
  shape3 ptrue rows cols (2 * num_ancs) →
  shape3 ppred1 rows cols num_ancs →
  shape3 ppred2 rows cols num_ancs →
  (∀ i j c, (i < rows)%nat → (j < cols)%nat → (c < num_ancs)%nat →
     at3 ptrue i j c ≠ 0 ∨ at3 ptrue i j (num_ancs + c) ≠ 0 →
     at3 ppred1 i j c = at3 ppred2 i j c) →
  rpn_cls_loss num_ancs ptrue ppred1 = rpn_cls_loss num_ancs ptrue ppred2.
Proof.
  intros Hpt Hp1 Hp2 Hagree.
  rewrite (rpn_cls_loss_sum num_ancs rows cols ptrue ppred1 Hpt Hp1).
  rewrite (rpn_cls_loss_sum num_ancs rows cols ptrue ppred2 Hpt Hp2).
  unfold cls_sum.
  apply sum_upto_ext. intros i Hi. apply sum_upto_ext. intros j Hj.
  apply sum_upto_ext. intros c Hc.
  destruct (Req_dec_T (at3 ptrue i j c) 0) as [Ea | Hne].
  - destruct (Req_dec_T (at3 ptrue i j (num_ancs + c)) 0) as [Eb | Hne].
    + rewrite Ea, Eb. ring.
    + rewrite (Hagree i j c Hi Hj Hc (or_intror Hne)). reflexivity.
  - rewrite (Hagree i j c Hi Hj Hc (or_introl Hne)). reflexivity.
Qed.

Lemma rpn_cls_loss_ignores_unmarked_witness :
  rpn_cls_loss 1 [[[0; 0]]] [[[1 / 2]]] = rpn_cls_loss 1 [[[0; 0]]] [[[1 / 3]]].
Proof.
  apply (rpn_cls_loss_ignores_unmarked 1 1 1);
    [repeat constructor | repeat constructor | repeat constructor |].
  intros i j c Hi Hj Hc.
  destruct i as [| i]; [| lia]. destruct j as [| j]; [| lia].
  destruct c as [| c]; [| lia].
  unfold at3. simpl. intros [Hne | Hne]; exfalso; apply Hne; reflexivity.
Defined.

End LossExtras.

(** ** Further facts about the generator *)

Section DataExtras.
Local Open Scope R_scope.
Context {rng image : Type}.
Variable choice : nat → nat → rng → list nat * rng.
Variable imread : Z → option image.
Variable csv : list (list Z).

(** The targets of an item have 2*anc_num and 8*anc_num channels. *)
Lemma datagen_body_shapes (ancs : arr3 box) (rows cols anc_num : nat)
    (i : Z) (g : rng) (s : sample image) (g' : rng) :
  shape3 ancs rows cols anc_num →
  datagen_body choice imread csv ancs i g = Some (s, g') →
  ∃ img yc yr,
    x_img s = [img] ∧ y_cls s = [yc] ∧ y_regr s = [yr]
    ∧ shape3 yc rows cols (anc_num + anc_num)
    ∧ shape3 yr rows cols (4 * anc_num + 4 * anc_num).
Proof.
  intros Hs H. unfold datagen_body in H.
  destruct (anchors_vs_gt ancs (gt_boxes csv i) 0.3 0.7)
    as [[[pos0 neg0] params] |] eqn:Havg; [simpl in H | discriminate].
  destruct (filter_boxes choice pos0 neg0 256 g)
    as [[[pos neg] g1] |] eqn:Hfb; [simpl in H | discriminate].
  destruct (imread i) as [img |]; [simpl in H | discriminate].
  injection H as <- <-.
  destruct (anchors_vs_gt_shape _ _ _ _ _ _ _ _ _ _ Havg Hs) as (Hp0 & Hn0 & Hpar).
  destruct (filter_boxes_shape _ _ _ _ _ _ _ _ _ _ _ Hfb Hp0 Hn0) as [Hp Hn].
  eexists _, _, _. split; [reflexivity |]. split; [reflexivity |].
  split; [reflexivity |]. split.
  - apply shape3_map3. apply shape3_concat_last; assumption.
  - apply shape3_concat_last; [| exact Hpar].
    apply shape3_map3. apply shape3_repeat_last. exact Hp.
Qed.

(** X23.  Every item [datagen] yields for anchors of shape
    (rows, cols, anc_num) is one picture with a y_cls target of shape
    (1, rows, cols, 2*anc_num) and a y_regr target of shape
    (1, rows, cols, 8*anc_num). *)
Theorem datagen_target_shapes (start stop : Z) (ancs : option (arr3 box))
    (shuffle : bool) (g : rng) (rows cols anc_num : nat) :
  shape3 (default_ancs ancs) rows cols anc_num →
  Forall
    (λ e, ∀ s, e.2 = Some s →
       ∃ img yc yr,
         x_img s = [img] ∧ y_cls s = [yc] ∧ y_regr s = [yr]
         ∧ shape3 yc rows cols (2 * anc_num)
         ∧ shape3 yr rows cols (8 * anc_num))
    (datagen choice imread csv start stop ancs shuffle g).
Proof.
  intros Hs. unfold datagen.
  apply (datagen_loop_Forall choice imread csv
           (λ i s, ∃ img yc yr,
              x_img s = [img] ∧ y_cls s = [yc] ∧ y_regr s = [yr]
              ∧ shape3 yc rows cols (2 * anc_num)
              ∧ shape3 yr rows cols (8 * anc_num))).
  intros i g0 s g1 Hb.
  destruct (datagen_body_shapes _ _ _ _ i g0 s g1 Hs Hb)
    as (img & yc & yr & E1 & E2 & E3 & Hc & Hr).
  exists img, yc, yr.
  replace (2 * anc_num)%nat with (anc_num + anc_num)%nat by lia.
  replace (8 * anc_num)%nat with (4 * anc_num + 4 * anc_num)%nat by lia.
  auto.
Qed.

(** The run stops at the first index whose body raises: an entry without
    item can only be the last one. *)
Lemma datagen_loop_stops (ancs : arr3 box) (idx : list Z) (g : rng) (k : nat) :
  (S k < length (datagen_loop choice imread csv ancs idx g))%nat →
  ∃ i s, datagen_loop choice imread csv ancs idx g !! k = Some (i, Some s).
Proof.
  revert g k. induction idx as [| i idx IH]; intros g k; simpl; [lia |].
  destruct (datagen_body choice imread csv ancs i g) as [[s g1] |]; simpl; [| lia].
  intros Hk. destruct k as [| k]; [exists i, s; reflexivity |].
  apply IH. lia.
Qed.

(** X24.  A run of [datagen] visits at most stop - start indices, none
    when stop <= start, and it ends at the first index whose body
    raises: every entry before the last one carries an item. *)
Theorem datagen_run_structure (start stop : Z) (ancs : option (arr3 box))
    (shuffle : bool) (g : rng) :
  let run := datagen choice imread csv start stop ancs shuffle g in
  (length run ≤ Z.to_nat (stop - start))%nat
  ∧ ((stop ≤ start)%Z → run = [])
  ∧ ∀ k, (S k < length run)%nat → ∃ i s, run !! k = Some (i, Some s).
Proof.
  cbv zeta. unfold datagen. split; [| split].
  - pose proof (datagen_loop_prefix choice imread csv (default_ancs ancs)
                  (arange start stop) g) as Hpre.
    apply prefix_length in Hpre. rewrite length_fmap in Hpre.
    unfold arange in Hpre. rewrite length_fmap, length_seq in Hpre. exact Hpre.
  - intros Hle. unfold arange.
    replace (Z.to_nat (stop - start)) with 0%nat by lia. reflexivity.
  - intros k. apply datagen_loop_stops.
Qed.

Hypothesis choice_ok :
  ∀ (n k : nat) (g : rng), k ≤ n → choice_outcome n k (choice n k g).1.

(** X25.  For image [i], the body of the generator raises exactly when
    the table has no row for [i], or there is no anchor, or the picture
    cannot be read. *)
Theorem datagen_body_raises_iff (ancs : arr3 box) (i : Z) (g : rng) :
  datagen_body choice imread csv ancs i g = None
  ↔ gt_boxes csv i = [] ∨ flat3 ancs = [] ∨ imread i = None.
Proof.
  split.
  - intros HN.
    destruct (gt_boxes csv i) as [| b bs] eqn:Eg; [left; reflexivity |].
    destruct (flat3 ancs) as [| a0 as_] eqn:Ea; [right; left; reflexivity |].
    destruct (imread i) as [img |] eqn:Ei; [| right; right; reflexivity].
    exfalso.
    destruct (datagen_body_runs choice imread csv ancs i g choice_ok)
      as [r Hr]; [rewrite Eg; discriminate | rewrite Ea; discriminate
                  | rewrite Ei; eauto |].
    congruence.
  - intros Hor. unfold datagen_body.
    destruct (anchors_vs_gt ancs (gt_boxes csv i) 0.3 0.7)
      as [[[pos0 neg0] params] |] eqn:Havg; [simpl | reflexivity].
    destruct (proj1 (anchors_vs_gt_Some ancs (gt_boxes csv i) 0.3 0.7))
      as [Hg Ha]; [rewrite Havg; eauto |].
    destruct Hor as [Hor | [Hor | Hor]]; [tauto | tauto |].
    destruct (filter_boxes choice pos0 neg0 256 g) as [[[pos neg] g1] |];
      [simpl | reflexivity].
    rewrite Hor. reflexivity.
Qed.

(** X26.  Every item [datagen] yields marks at most 128 anchors positive
    and at most 256 anchors in all: the masks laid into its targets are
    those [filter_boxes] returned for num = 256. *)
Theorem datagen_batch_caps (start stop : Z) (ancs : option (arr3 box))
    (shuffle : bool) (g : rng) (rows cols anc_num : nat) :
  shape3 (default_ancs ancs) rows cols anc_num →
  Forall
    (λ e, ∀ s, e.2 = Some s →
       ∃ pos neg params,
         laid_out anc_num pos neg params s
         ∧ (count_true pos ≤ 128)%nat
         ∧ (count_true pos + count_true neg ≤ 256)%nat)
    (datagen choice imread csv start stop ancs shuffle g).
Proof.
  intros Hs. unfold datagen.
  apply (datagen_loop_Forall choice imread csv
           (λ i s, ∃ pos neg params,
              laid_out anc_num pos neg params s
              ∧ (count_true pos ≤ 128)%nat
              ∧ (count_true pos + count_true neg ≤ 256)%nat)).
  intros i g0 s g1 Hb.
  destruct (datagen_body_layout choice imread csv _ _ _ _ i g0 s g1 Hs Hb)
    as (pos0 & neg0 & params & pos & neg & Havg & Hfb & Hp & Hpar & Hlay).
  destruct (filter_boxes_caps choice choice_ok pos0 neg0 256 g0 ltac:(lia))
    as (pos' & neg' & g' & Hrun & Hcap & Htot & _).
  rewrite Hfb in Hrun. injection Hrun as <- <- <-.
  exists pos, neg, params. split; [exact Hlay |]. lia.
Qed.

End DataExtras.

Lemma datagen_target_shapes_witness :
  Forall
    (λ e, ∀ s, e.2 = Some s →
       ∃ img yc yr,
         x_img s = [img] ∧ y_cls s = [yc] ∧ y_regr s = [yr]
         ∧ shape3 yc 1 1 (2 * 1)
         ∧ shape3 yr 1 1 (8 * 1))
    (datagen first_k (λ _ : Z, Some ()) [[0; 0; 0; 2; 2; 1]]%Z 0 1
             (Some [[[[0%R; 0%R; 2%R; 2%R]]]]) true ()).
Proof.
  apply (datagen_target_shapes first_k (λ _ : Z, Some ()) [[0; 0; 0; 2; 2; 1]]%Z 0 1
           (Some [[[[0%R; 0%R; 2%R; 2%R]]]]) true () 1 1 1).
  repeat constructor.
Defined.

Lemma datagen_body_raises_iff_witness :
  datagen_body first_k (λ _ : Z, Some ()) [[0; 0; 0; 2; 2; 1]]%Z
               [[[[0%R; 0%R; 2%R; 2%R]]]] 5 () = None
  ↔ gt_boxes [[0; 0; 0; 2; 2; 1]]%Z 5 = []
    ∨ flat3 [[[[0%R; 0%R; 2%R; 2%R]]]] = [] ∨ (λ _ : Z, Some ()) 5%Z = None.
Proof.
  apply (datagen_body_raises_iff first_k (λ _ : Z, Some ()) [[0; 0; 0; 2; 2; 1]]%Z
           first_k_ok [[[[0%R; 0%R; 2%R; 2%R]]]] 5 ()).
Defined.

Lemma datagen_batch_caps_witness :
  Forall
    (λ e, ∀ s, e.2 = Some s →
       ∃ pos neg params,
         laid_out 1 pos neg params s
         ∧ (count_true pos ≤ 128)%nat
         ∧ (count_true pos + count_true neg ≤ 256)%nat)
    (datagen first_k (λ _ : Z, Some ()) [[0; 0; 0; 2; 2; 1]]%Z 0 1
             (Some [[[[0%R; 0%R; 2%R; 2%R]]]]) true ()).
Proof.
  apply (datagen_batch_caps first_k (λ _ : Z, Some ()) [[0; 0; 0; 2; 2; 1]]%Z
           first_k_ok 0 1 (Some [[[[0%R; 0%R; 2%R; 2%R]]]]) true () 1 1 1).
  repeat constructor.
Defined.

(** ** The generator's default anchors against the table of gt.txt *)

Section DefaultAnchorFacts.
Local Open Scope R_scope.





End DefaultAnchorFacts.

(** ** Facts about the search for saved models *)

Section CheckpointFacts.
Import String Ascii.
Local Open Scope string_scope.

Lemma append_assoc (a b c : string) : (a ++ b) ++ c = a ++ (b ++ c).
Proof. induction a as [| x a IH]; [reflexivity |]. simpl. rewrite IH. reflexivity. Qed.

Lemma strip_prefix_app (p s : string) : strip_prefix p (p ++ s) = Some s.
Proof.
  induction p as [| a p IH]; [reflexivity |].
  simpl. rewrite Ascii.eqb_refl. exact IH.
Qed.

(** The digits of a decimal numeral are read back as one run. *)
Lemma span_digits_uint (d : Decimal.uint) (rest : string) :
  (∀ c r, rest = String c r → is_digit c = false) →
  span_digits (DecimalString.NilEmpty.string_of_uint d ++ rest)
  = (DecimalString.NilEmpty.string_of_uint d, rest).
Proof.
  intros Hrest. induction d as [| d IH | d IH | d IH | d IH | d IH
                                | d IH | d IH | d IH | d IH | d IH];
    try (cbn [DecimalString.NilEmpty.string_of_uint append span_digits];
         rewrite IH; reflexivity).
  cbn [DecimalString.NilEmpty.string_of_uint append].
  destruct rest as [| c r]; [reflexivity |].
  cbn [span_digits]. rewrite (Hrest c r eq_refl). reflexivity.
Qed.

Lemma int_acc_uint (d : Decimal.uint) (acc : nat) :
  int_acc (DecimalString.NilEmpty.string_of_uint d) acc = Nat.of_uint_acc d acc.
Proof.
  revert acc.
  induction d as [| d IH | d IH | d IH | d IH | d IH
                  | d IH | d IH | d IH | d IH | d IH]; intros acc;
    [reflexivity | ..];
    cbn [DecimalString.NilEmpty.string_of_uint int_acc Nat.of_uint_acc];
    rewrite IH, Nat.tail_mul_spec; f_equal; unfold digit_value; simpl; lia.
Qed.

Lemma int_of_decimal (n : nat) : int_of_digits (decimal n) = n.
Proof.
  unfold int_of_digits, decimal. rewrite int_acc_uint.
  apply DecimalNat.Unsigned.of_to.
Qed.

Lemma decimal_nonempty (n : nat) : decimal n ≠ EmptyString.
Proof.
  unfold decimal.
  assert (Hn : Nat.to_uint n ≠ Decimal.Nil).
  { rewrite <- (DecimalNat.Unsigned.of_to n) at 1.
    rewrite DecimalNat.Unsigned.to_of. apply DecimalFacts.unorm_nonnil. }
  destruct (Nat.to_uint n); [congruence | discriminate ..].
Qed.

Lemma match_decimal (n : nat) (suffix : string) :
  match_checkpoint ("gtsdb_rpn-" ++ decimal n ++ ".hdf5" ++ suffix)
  = Some (decimal n).
Proof.
  unfold match_checkpoint. rewrite strip_prefix_app. simpl mbind.
  unfold decimal at 1. rewrite span_digits_uint.
  - fold (decimal n). pose proof (decimal_nonempty n) as Hne.
    destruct (decimal n) as [| c ds]; [congruence |].
    reflexivity.
  - intros c r Hc. injection Hc as <- _. reflexivity.
Qed.

(** X27.  The name the loader builds for epoch [n],
    gtsdb_rpn-<n>.hdf5, is recognised by the search with the number [n];
    so is that name followed by any further text, since the pattern is
    matched at the start of the name only. *)
Theorem checkpoint_name_round_trip (n : nat) (suffix : string) :
  epoch_of (checkpoint_name n) = Some n
  ∧ epoch_of (checkpoint_name n ++ suffix) = Some n.
Proof.
  assert (H : ∀ sfx, epoch_of (checkpoint_name n ++ sfx) = Some n).
  { intros sfx. unfold epoch_of, checkpoint_name.
    rewrite !append_assoc, match_decimal. simpl. rewrite int_of_decimal.
    reflexivity. }
  split; [| apply H].
  specialize (H EmptyString).
  replace (checkpoint_name n ++ "") with (checkpoint_name n) in H; [exact H |].
  generalize (checkpoint_name n). intros s.
  induction s as [| c s IH]; [reflexivity |]. simpl. rewrite <- IH. reflexivity.
Qed.

(** X28.  A name with a zero before the digits of [n] is recognised with
    the number [n] as well, yet it is not the name the loader builds for
    [n]: for a listing of that one name the model is loaded from
    gtsdb_rpn-<n>.hdf5, a name that is not in the listing. *)
Theorem checkpoint_leading_zero (n : nat) :
  let fn := "gtsdb_rpn-0" ++ decimal n ++ ".hdf5" in
  epoch_of fn = Some n
  ∧ choose_model [fn] = LoadFrom (checkpoint_path n)
  ∧ checkpoint_name n ∉ [fn].
Proof.
  intros fn.
  assert (Hep : epoch_of fn = Some n); [| split; [exact Hep | split]];
    [| unfold choose_model, saved_epochs; simpl omap; rewrite Hep; reflexivity
     | intros Hin; apply list_elem_of_singleton in Hin; symmetry in Hin; revert Hin ];
    subst fn.
  - unfold epoch_of, match_checkpoint.
    change ("gtsdb_rpn-0" ++ decimal n ++ ".hdf5")
      with ("gtsdb_rpn-" ++ String "0" (decimal n ++ ".hdf5")).
    rewrite strip_prefix_app. simpl mbind. cbn [span_digits].
    change (is_digit "0") with true. cbv iota.
    unfold decimal at 1. rewrite span_digits_uint.
    + fold (decimal n). csimpl.
      unfold int_of_digits. cbn [int_acc].
      change (10 * 0 + digit_value "0")%nat with 0%nat.
      f_equal. apply int_of_decimal.
    + intros c r Hc. injection Hc as <- _. reflexivity.
  - unfold checkpoint_name. intros Heq.
    assert (Hlen : String.length ("gtsdb_rpn-0" ++ decimal n ++ ".hdf5")
                   = String.length ("gtsdb_rpn-" ++ decimal n ++ ".hdf5"))
      by (rewrite Heq; reflexivity).
    simpl in Hlen. lia.
Qed.



(** A listing with two saved models and another file. *)
Example choose_model_example :
  choose_model ["gtsdb_rpn-3.hdf5"; "notes.txt"; "gtsdb_rpn-12.hdf5"]
  = LoadFrom "models/gtsdb_rpn/gtsdb_rpn-12.hdf5".
Proof. reflexivity. Qed.

(** Names that do not match from their first character are left out. *)
Example choose_model_no_match :
  choose_model ["old_gtsdb_rpn-3.hdf5"; "gtsdb_rpn-.hdf5"; "gtsdb_rpn-3_hdf5"]
  = BuildNew.
Proof. reflexivity. Qed.


End CheckpointFacts.
